(** * lightpath.py: path discovery and flow derivation

    A shallow embedding of [src/lightpath.py]: the normalization of topology
    links, the switch graph built from them, the breadth-first path search,
    the per-hop port resolution, the fallback attachment heuristic, the flow
    pusher and [main], which drives them.  Python dictionaries are finite
    maps ([gmap]) or, for decoded JSON, lists of items; the [visited] set is
    a [gset]; a port is [option Z] ([None] is Python's [None]); a function
    that can raise returns a [result].

    What is left outside the model: printing; the HTTP layer, whose answers
    are inputs ([get_topology_links] starts from the decoded body, [main]
    takes the outcome of the device directory stage and of the topology
    call, and an installation request is taken to be answered); characters
    beyond ASCII in what [int] parses; and [str] of a float, a list or a
    dict, which is a parameter of the normalizer. *)

From stdpp Require Import gmap strings list fin_maps.
From Stdlib Require Import ZArith Ascii DecimalString DecimalPos DecimalZ SpecFloat.
From Stdlib Require HexadecimalString HexadecimalZ.

Open Scope string_scope.
Open Scope list_scope.
Open Scope nat_scope.

(* stdpp's solvers clear hypotheses that may already be gone. *)
Set Warnings "-clear-no-such-hyp".

(** ** Exceptions *)

(** Why [main] exits through [SystemExit]. *)
Inductive abort :=
  | AttachmentUnresolved
  | EmptyTopology
  | PathNotFound.

(** The exceptions the modelled code can raise. *)
Inductive exn :=
  | AttributeError
  | IndexError
  | KeyError
  | TypeError
  | ValueError
  | OverflowError
  | RequestException
  | SystemExit (why : abort).

(** A value, or the exception raised instead. *)
Inductive result (A : Type) :=
  | Ok (a : A)
  | Raise (e : exn).
Arguments Ok {A} a.
Arguments Raise {A} e.

Definition result_bind {A B} (r : result A) (f : A → result B) : result B :=
  match r with
  | Ok a => f a
  | Raise e => Raise e
  end.

(** ** Data model *)

(** A port: an [int], or [None] when unknown. *)
Definition port := option Z.

(** One normalized link, the dictionary with keys [src], [src_port], [dst],
    [dst_port] that [get_topology_links] appends. *)
Record Link := mkLink {
  src : string;
  src_port : port;
  dst : string;
  dst_port : port
}.

(** An adjacency entry [(neighbor_dpid, port_on_this_switch, port_on_neighbor)]. *)
Definition entry := (string * port * port)%type.

Definition entry_nbr (e : entry) : string := e.1.1.
Definition entry_local (e : entry) : port := e.1.2.
Definition entry_peer (e : entry) : port := e.2.

(** The graph, a [defaultdict(list)] from switch to adjacency entries. *)
Abbreviation graph := (gmap string (list entry)).

(** [graph.get(sw, [])]: reading never creates a key. *)
Definition neighbors (g : graph) (sw : string) : list entry :=
  default [] (g !! sw).

(** ** Graph Builder *)

(** [graph[sw].append(e)] on a [defaultdict(list)]. *)
Definition graph_append (g : graph) (sw : string) (e : entry) : graph :=
  <[sw := neighbors g sw ++ [e]]> g.

(** Python's [not s] for a string. *)
Definition str_falsy (s : string) : bool := String.eqb s "".

(** One iteration of the loop of [build_switch_graph]. *)
Definition add_link (g : graph) (l : Link) : graph :=
  if str_falsy (src l) || str_falsy (dst l) then g
  else
    let g1 := graph_append g (src l) (dst l, src_port l, dst_port l) in
    graph_append g1 (dst l) (src l, dst_port l, src_port l).

Definition build_switch_graph (links : list Link) : graph :=
  fold_left add_link links ∅.

(** The symmetry invariant of the data model. *)
Definition symmetric (g : graph) : Prop :=
  ∀ a b p q, (b, p, q) ∈ neighbors g a ↔ (a, q, p) ∈ neighbors g b.

(** The two entries that a link with both switch identifiers contributes. *)
Definition entry_of_link (l : Link) (a : string) (e : entry) : Prop :=
  str_falsy (src l) = false ∧ str_falsy (dst l) = false ∧
  ((a = src l ∧ e = (dst l, src_port l, dst_port l)) ∨
   (a = dst l ∧ e = (src l, dst_port l, src_port l))).

(** ** Port Resolver *)

(** The inner [for nbr, src_p, dst_p in graph.get(sw, []): if nbr == target:
    port = src_p; break], started from [port = None]: the local port of the
    first entry toward [target]. *)
Fixpoint first_port_toward (adj : list entry) (target : string) : port :=
  match adj with
  | [] => None
  | (nbr, src_p, _) :: rest =>
      if String.eqb nbr target then src_p else first_port_toward rest target
  end.

(** The body of the loop of [path_ports_for_switches] at index [i], switch
    [sw].  [switch_path[i - 1]] and [switch_path[i + 1]] are in range under
    their guards. *)
Definition hop_ports_at (g : graph) (switch_path : list string)
    (i : nat) (sw : string) : port * port :=
  let in_port :=
    if bool_decide (0 < i) then
      match switch_path !! (i - 1) with
      | Some prev => first_port_toward (neighbors g sw) prev
      | None => None
      end
    else None in
  let out_port :=
    if bool_decide (i < length switch_path - 1) then
      match switch_path !! (i + 1) with
      | Some nxt => first_port_toward (neighbors g sw) nxt
      | None => None
      end
    else None in
  (in_port, out_port).

(** [enumerate(l)]. *)
Definition enumerate {A} (l : list A) : list (nat * A) :=
  combine (seq 0 (length l)) l.

(** [hop_ports], a dictionary keyed by switch: a later hop on the same switch
    overwrites an earlier one. *)
Abbreviation hop_map := (gmap string (port * port)).

Definition path_ports_for_switches (g : graph) (switch_path : list string)
    : hop_map :=
  fold_left (λ hp '(i, sw), <[sw := hop_ports_at g switch_path i sw]> hp)
            (enumerate switch_path) ∅.

(** The first adjacency entry of [adj] toward [target], if any. *)
Fixpoint first_entry_toward (adj : list entry) (target : string)
    : option entry :=
  match adj with
  | [] => None
  | e :: rest =>
      if String.eqb (entry_nbr e) target then Some e
      else first_entry_toward rest target
  end.

(** The port that switch [a] records on [b]'s side of its link toward [b]:
    the third component of the entry from which [a]'s port toward [b] is
    read. *)
Definition peer_port_toward (g : graph) (a b : string) : port :=
  match first_entry_toward (neighbors g a) b with
  | Some e => entry_peer e
  | None => None
  end.

(** The entry that [b] holds toward [a], read from the one [a] holds toward [b]. *)
Definition mirror_entry (a : string) (e : entry) : entry :=
  (a, entry_peer e, entry_local e).

(** Between two different switches the first entries toward each other
    describe the same link. *)
Definition first_entries_paired (g : graph) : Prop :=
  ∀ a b, a ≠ b →
    first_entry_toward (neighbors g b) a
    = mirror_entry a <$> first_entry_toward (neighbors g a) b.

(** Ingress and egress of a hop, [None] also for a switch that is no key. *)
Definition ingress (hp : hop_map) (sw : string) : port :=
  match hp !! sw with Some io => io.1 | None => None end.
Definition egress (hp : hop_map) (sw : string) : port :=
  match hp !! sw with Some io => io.2 | None => None end.

(** Self-consistency of the ports of a hop [sw] between [prev] and [nxt]: its
    ingress port is the port that [prev]'s entry toward it records on its
    side, and its egress port the one that [nxt]'s entry toward it records. *)
Definition hop_consistent (g : graph) (hp : hop_map)
    (prev sw nxt : string) : Prop :=
  ingress hp sw = peer_port_toward g prev sw ∧
  egress hp sw = peer_port_toward g nxt sw.

(** The same read on port numbers alone: the ingress port of [sw] is the
    number of [prev]'s egress port, its egress port that of [nxt]'s ingress. *)
Definition hop_same_numbers (hp : hop_map) (prev sw nxt : string) : Prop :=
  ingress hp sw = egress hp prev ∧ egress hp sw = ingress hp nxt.

(** ** Path Engine *)

(** What one pass over the neighbours of a node gives: [return newpath], or
    the loop runs to its end with an updated queue and [visited] set. *)
Inductive scan_result :=
  | Found (newpath : list string)
  | Scanned (q : list (list string)) (visited : gset string).

(** [for (nbr, _, _) in graph.get(node, []): ...] of [shortest_switch_path]. *)
Fixpoint scan_neighbors (dst_sw : string) (path : list string)
    (adj : list entry) (q : list (list string)) (visited : gset string)
    : scan_result :=
  match adj with
  | [] => Scanned q visited
  | (nbr, _, _) :: rest =>
      if decide (nbr ∈ visited) then scan_neighbors dst_sw path rest q visited
      else
        let visited := {[nbr]} ∪ visited in
        let newpath := path ++ [nbr] in
        if String.eqb nbr dst_sw then Found newpath
        else scan_neighbors dst_sw path rest (q ++ [newpath]) visited
  end.

(** How a run of the [while q:] loop ends.  [OutOfFuel] is the model's own:
    the loop is run for at most [fuel] iterations.  [path[-1]] raises
    [IndexError] on an empty path. *)
Inductive outcome :=
  | OutOfFuel
  | Raises (e : exn)
  | Return (r : option (list string)).

Fixpoint bfs_loop (fuel : nat) (g : graph) (dst_sw : string)
    (q : list (list string)) (visited : gset string) : outcome :=
  match fuel with
  | 0 => OutOfFuel
  | S fuel =>
      match q with
      | [] => Return None
      | path :: q =>
          match last path with
          | None => Raises IndexError
          | Some node =>
              match scan_neighbors dst_sw path (neighbors g node) q visited with
              | Found newpath => Return (Some newpath)
              | Scanned q visited => bfs_loop fuel g dst_sw q visited
              end
          end
      end
  end.

(** Every neighbour name of the graph, one per adjacency entry. *)
Definition all_neighbors (g : graph) : list string :=
  map_to_list g ≫= λ kv, entry_nbr <$> kv.2.

(** Iterations granted to the loop: every iteration but the first pops a path
    that was pushed for a distinct neighbour name, and one more iteration
    finds the queue empty. *)
Definition bfs_fuel (g : graph) : nat := 2 + length (all_neighbors g).

Definition bfs_run (g : graph) (src_sw dst_sw : string) : outcome :=
  bfs_loop (bfs_fuel g) g dst_sw [[src_sw]] {[src_sw]}.

Definition shortest_switch_path (g : graph) (src_sw dst_sw : string)
    : option (list string) :=
  if String.eqb src_sw dst_sw then Some [src_sw]
  else
    match bfs_run g src_sw dst_sw with
    | Return r => r
    | OutOfFuel | Raises _ => None
    end.

(** [b] is listed as a neighbour of [a]. *)
Definition adjacent (g : graph) (a b : string) : Prop :=
  ∃ e, e ∈ neighbors g a ∧ entry_nbr e = b.

(** A path of the graph: a non-empty sequence of switches, each listed as a
    neighbour of the one before it. *)
Definition is_path (g : graph) (p : list string) : Prop :=
  p ≠ [] ∧ ∀ i a b, p !! i = Some a → p !! S i = Some b → adjacent g a b.

(** [p] connects [a] to [b]. *)
Definition connects (g : graph) (a b : string) (p : list string) : Prop :=
  is_path g p ∧ head p = Some a ∧ last p = Some b.

(** Hop count of a path. *)
Definition hops (p : list string) : nat := length p - 1.

(** *** The invariant of the search *)

(** What holds of every path waiting in the queue: it is a duplicate-free
    path of the graph from the source, its switches are marked visited, and
    no path from the source to its last switch is shorter. *)
Definition queued_ok (g : graph) (src_sw : string) (visited : gset string)
    (p : list string) : Prop :=
  is_path g p ∧ head p = Some src_sw ∧ NoDup p ∧
  (∀ x, x ∈ p → x ∈ visited) ∧
  (∀ u p', last p = Some u → connects g src_sw u p' → length p ≤ length p').

(** A switch all of whose neighbours are marked. *)
Definition closed (g : graph) (visited : gset string) (u : string) : Prop :=
  ∀ v, adjacent g u v → v ∈ visited.

(** The queue is ordered by length and spans at most two lengths. *)
Fixpoint levels (q : list (list string)) : Prop :=
  match q with
  | [] => True
  | p :: q => Forall (λ p2, length p ≤ length p2 ≤ S (length p)) q ∧ levels q
  end.

(** [open] is the queue, headed during a scan by the path being expanded. *)
Definition bfs_inv (g : graph) (src_sw dst_sw : string)
    (open : list (list string)) (visited : gset string) : Prop :=
  src_sw ∈ visited ∧ (dst_sw ∉ visited) ∧
  Forall (queued_ok g src_sw visited) open ∧
  (∀ u, u ∈ visited →
     (∃ p, p ∈ open ∧ last p = Some u) ∨ closed g visited u) ∧
  levels open.

(** What a returned value must satisfy. *)
Definition bfs_post (g : graph) (src_sw dst_sw : string)
    (r : option (list string)) : Prop :=
  match r with
  | Some p =>
      connects g src_sw dst_sw p ∧ NoDup p ∧
      ∀ p', connects g src_sw dst_sw p' → length p ≤ length p'
  | None => ∀ p', ¬ connects g src_sw dst_sw p'
  end.

(** The names a search can ever mark, as a set. *)
Definition neighbor_names (g : graph) : gset string :=
  list_to_set (all_neighbors g).

(** ** Sample topologies *)

(** [sudo mn --topo linear,3]: s1-eth2 to s2-eth2, s2-eth3 to s3-eth2. *)
Definition line_links : list Link :=
  [ mkLink "00:00:00:00:00:00:00:01" (Some 2%Z) "00:00:00:00:00:00:00:02" (Some 2%Z);
    mkLink "00:00:00:00:00:00:00:02" (Some 3%Z) "00:00:00:00:00:00:00:03" (Some 2%Z) ].

Definition line_graph : graph := build_switch_graph line_links.

Definition line_path : list string :=
  [ "00:00:00:00:00:00:00:01"; "00:00:00:00:00:00:00:02"; "00:00:00:00:00:00:00:03" ].

(** A symmetric graph with two links between A and B which the two switches
    list in opposite orders. *)
Definition crossed_graph : graph :=
  <["A" := [("B", Some 1%Z, Some 2%Z); ("B", Some 3%Z, Some 4%Z)]]>
  (<["B" := [("A", Some 4%Z, Some 3%Z); ("A", Some 2%Z, Some 1%Z);
             ("C", Some 5%Z, Some 6%Z)]]>
  (<["C" := [("B", Some 6%Z, Some 5%Z)]]> ∅)).

(** ** Python strings and integers

    A [str] is modelled by the sequence of its characters as [string]; the
    built-ins below are modelled on ASCII text ([int] also accepts other
    Unicode decimal digits and spaces, which are not modelled). *)

(** [str(n)] for an [int]. *)
Definition str_of_int (n : Z) : string :=
  NilZero.string_of_int (Z.to_int n).

(** ["{:02d}".format(n)]: at least two characters, zero-padded after the sign. *)
Definition format_02d (n : Z) : string :=
  let s := str_of_int n in
  if bool_decide (String.length s < 2) then "0" +:+ s else s.

(** [s.lstrip(c)] for a one-character [c]. *)
Fixpoint lstrip_char (c : ascii) (s : string) : string :=
  match s with
  | String x s' => if Ascii.eqb x c then lstrip_char c s' else s
  | EmptyString => EmptyString
  end.

(** The ASCII characters that [int] skips around a numeral: tab, line feed,
    vertical tab, form feed, carriage return and space. *)
Definition is_space (c : ascii) : bool :=
  let n := nat_of_ascii c in
  bool_decide (9 ≤ n ≤ 13) || bool_decide (n = 32).

Fixpoint lstrip_space (s : string) : string :=
  match s with
  | String x s' => if is_space x then lstrip_space s' else s
  | EmptyString => EmptyString
  end.

Fixpoint rstrip_space (s : string) : string :=
  match s with
  | String x s' =>
      match rstrip_space s' with
      | EmptyString => if is_space x then EmptyString else String x EmptyString
      | r => String x r
      end
  | EmptyString => EmptyString
  end.

Definition digit_of_ascii (c : ascii) : option (Decimal.uint → Decimal.uint) :=
  match c with
  | "0" => Some Decimal.D0 | "1" => Some Decimal.D1 | "2" => Some Decimal.D2
  | "3" => Some Decimal.D3 | "4" => Some Decimal.D4 | "5" => Some Decimal.D5
  | "6" => Some Decimal.D6 | "7" => Some Decimal.D7 | "8" => Some Decimal.D8
  | "9" => Some Decimal.D9 | _ => None
  end%char.

(** The rest of a numeral after a digit: digits, each of which one
    underscore may precede. *)
Fixpoint digits_rest (s : string) : option Decimal.uint :=
  match s with
  | EmptyString => Some Decimal.Nil
  | String c s' =>
      match digit_of_ascii c with
      | Some D => D <$> digits_rest s'
      | None =>
          if Ascii.eqb c "_" then
            match s' with
            | String c' s'' =>
                match digit_of_ascii c' with
                | Some D => D <$> digits_rest s''
                | None => None
                end
            | EmptyString => None
            end
          else None
      end
  end.

Definition digits (s : string) : option Decimal.uint :=
  match s with
  | String c s' =>
      match digit_of_ascii c with
      | Some D => D <$> digits_rest s'
      | None => None
      end
  | EmptyString => None
  end.

(** CPython's default limit on the number of digits [int] converts. *)
Definition int_max_str_digits : nat := 4300.

Definition numeral_value (d : Decimal.uint) : option Z :=
  if bool_decide (Decimal.nb_digits d ≤ int_max_str_digits)
  then Some (Z.of_uint d) else None.

(** [int(s)] for a [str], base 10; [None] stands for [ValueError]. *)
Definition int_of_string (s : string) : option Z :=
  match rstrip_space (lstrip_space s) with
  | String "+" r => digits r ≫= numeral_value
  | String "-" r => Z.opp <$> (digits r ≫= numeral_value)
  | t => digits t ≫= numeral_value
  end.

(** ** Device Locator: the fallback heuristic *)

(** An attachment point [(switch, port)]. *)
Definition attachment := (string * Z)%type.

(** [heuristic] of [main]. *)
Definition heuristic (hostname : string) : option attachment :=
  match int_of_string (lstrip_char "h" hostname) with
  | None => None
  | Some n => Some ("00:00:00:00:00:00:00:" +:+ format_02d n, 1%Z)
  end.


(** ** Flow Installer *)

(** [s.rstrip(c)] for a one-character [c]. *)
Fixpoint rstrip_char (c : ascii) (s : string) : string :=
  match s with
  | String x s' =>
      match rstrip_char c s' with
      | EmptyString => if Ascii.eqb x c then EmptyString else String x EmptyString
      | r => String x r
      end
  | EmptyString => EmptyString
  end.

(** ["{}".format(p)] for a port. *)
Definition format_port (p : port) : string :=
  match p with
  | Some n => str_of_int n
  | None => "None"
  end.

(** The [flow] dictionary, in insertion order; every value is a string. *)
Definition flow := list (string * string).

(** A request sent to the controller. *)
Inductive event :=
  | Get (url : string)
  | Post (url : string) (body : flow).

Definition default_priority : Z := 32768.

(** [push_flow]: the request it posts. *)
Definition push_flow (floodlight_url switch_dpid flow_name : string)
    (in_port out_port : port) (priority : Z) : event :=
  let url := rstrip_char "/" floodlight_url +:+ "/wm/staticflowpusher/json" in
  let flow :=
    [ ("switch", switch_dpid); ("name", flow_name); ("cookie", "0");
      ("priority", str_of_int priority); ("active", "true") ] in
  let flow :=
    match in_port with
    | Some p => flow ++ [("in_port", str_of_int p)]
    | None => flow
    end in
  let flow := flow ++ [("actions", "output=" +:+ format_port out_port)] in
  Post url flow.

(** [flow.get(key)]. *)
Fixpoint flow_field (f : flow) (key : string) : option string :=
  match f with
  | [] => None
  | (k, v) :: f => if String.eqb k key then Some v else flow_field f key
  end.

(** ** Programs: requests issued so far, and a value or an exception *)

Definition prog (A : Type) : Type := (list event * result A)%type.

Definition ret {A} (a : A) : prog A := ([], Ok a).
Definition emit (e : event) : prog unit := ([e], Ok tt).
Definition raise {A} (e : exn) : prog A := ([], Raise e).
Definition lift {A} (r : result A) : prog A := ([], r).

Definition bind {A B} (m : prog A) (f : A → prog B) : prog B :=
  match m with
  | (t, Ok a) => let '(t', r) := f a in (t ++ t', r)
  | (t, Raise e) => (t, Raise e)
  end.

Notation "'let*' x ':=' m 'in' k" := (bind m (λ x, k))
  (at level 10, x name, m at level 100, k at level 200).

(** The installation requests of a trace. *)
Definition is_install (e : event) : bool :=
  match e with Post _ _ => true | Get _ => false end.

Definition installs (t : list event) : list event :=
  List.filter is_install t.

(** ** main *)

Record Args := mkArgs {
  arg_src : string;
  arg_dst : string;
  arg_floodlight : string;
  arg_bidirectional : bool
}.

(** Lines 298 to 315: the fallback when the device directory gave no
    attachment for a host. *)
Definition resolve_attachments (args : Args)
    (picked_src picked_dst : option attachment)
    : option attachment * option attachment :=
  match picked_src, picked_dst with
  | Some _, Some _ => (picked_src, picked_dst)
  | _, _ =>
      (match picked_src with None => heuristic (arg_src args) | _ => picked_src end,
       match picked_dst with None => heuristic (arg_dst args) | _ => picked_dst end)
  end.

(** [hop_ports[sw]]. *)
Definition hop_getitem (hp : hop_map) (sw : string) : result (port * port) :=
  match hp !! sw with
  | Some io => Ok io
  | None => Raise KeyError
  end.

(** [path[0]] and [path[-1]]. *)
Definition path_first (path : list string) : result string :=
  match head path with Some sw => Ok sw | None => Raise IndexError end.
Definition path_last (path : list string) : result string :=
  match last path with Some sw => Ok sw | None => Raise IndexError end.

(** The two assignments that put the host ports at the ends of the path. *)
Definition override_endpoints (hp : hop_map) (path : list string)
    (first_in last_out : Z) : result hop_map :=
  result_bind (path_first path) (λ sw0,
  result_bind (hop_getitem hp sw0) (λ io0,
  let hp := <[sw0 := (Some first_in, io0.2)]> hp in
  result_bind (path_last path) (λ swn,
  result_bind (hop_getitem hp swn) (λ ion,
  Ok (<[swn := (ion.1, Some last_out)]> hp))))).

(** One direction's loop over [enumerate(path)]. *)
Fixpoint install_flows (fl name_prefix : string) (hp : hop_map)
    (last_resort : Z) (hops : list (nat * string)) : prog unit :=
  match hops with
  | [] => ret tt
  | (i, sw) :: hops =>
      let* io := lift (hop_getitem hp sw) in
      let out_p := match io.2 with None => Some last_resort | p => p end in
      let name := name_prefix +:+ str_of_int (Z.of_nat (i + 1)) in
      let* _ := emit (push_flow fl sw name io.1 out_p default_priority) in
      install_flows fl name_prefix hp last_resort hops
  end.

(** The call [get_topology_links(fl)]: its request, then what it returns
    or raises. *)
Definition query_topology (fl : string) (answer : result (list Link))
    : prog (list Link) :=
  let* _ := emit (Get (rstrip_char "/" fl +:+ "/wm/topology/links/json")) in
  lift answer.

(** The two queries that precede every installation. *)
Definition devices_url (args : Args) : string :=
  rstrip_char "/" (rstrip_char "/" (arg_floodlight args)) +:+ "/wm/device/".
Definition links_url (args : Args) : string :=
  rstrip_char "/" (rstrip_char "/" (arg_floodlight args))
  +:+ "/wm/topology/links/json".

(** Lines 272 to 296, the device directory stage: its request, then the two
    results of [pick_attachment], or the exception raised on the way (by the
    request, by [get_devices] on an answer of unexpected type, or by a record
    of unexpected shape). *)
Definition query_devices (fl : string)
    (answer : result (option attachment * option attachment))
    : prog (option attachment * option attachment) :=
  let* _ := emit (Get (rstrip_char "/" fl +:+ "/wm/device/")) in
  lift answer.

(** [main].  [directory] is what the device directory stage gives, [topology]
    what the call of [get_topology_links] gives.  Printing is not modelled,
    and an installation request is taken to be answered. *)
Definition main (args : Args)
    (directory : result (option attachment * option attachment))
    (topology : result (list Link)) : prog unit :=
  let fl := rstrip_char "/" (arg_floodlight args) in
  let* picked := query_devices fl directory in
  match resolve_attachments args picked.1 picked.2 with
  | (Some (src_switch, src_port), Some (dst_switch, dst_port)) =>
      let* links := query_topology fl topology in
      if bool_decide (length links = 0) then
        let* _ := emit (Get (fl +:+ "/wm/topology/links/json")) in
        raise (SystemExit EmptyTopology)
      else
        let graph := build_switch_graph links in
        let* sw_path :=
          match shortest_switch_path graph src_switch dst_switch with
          | Some p => ret p
          | None =>
              if String.eqb src_switch dst_switch then ret [src_switch]
              else raise (SystemExit PathNotFound)
          end in
        let* hop_ports :=
          lift (override_endpoints (path_ports_for_switches graph sw_path)
                                   sw_path src_port dst_port) in
        let* _ :=
          install_flows fl
            ("fwd_" +:+ arg_src args +:+ "_to_" +:+ arg_dst args +:+ "_")
            hop_ports dst_port (enumerate sw_path) in
        if arg_bidirectional args then
          let rev_path := reverse sw_path in
          let* rev_hop_ports :=
            lift (override_endpoints (path_ports_for_switches graph rev_path)
                                     rev_path dst_port src_port) in
          install_flows fl
            ("rev_" +:+ arg_dst args +:+ "_to_" +:+ arg_src args +:+ "_")
            rev_hop_ports src_port (enumerate rev_path)
        else ret tt
  | _ => raise (SystemExit AttachmentUnresolved)
  end.

(** ** Topology Normalizer *)

(** A decoded JSON document, as [r.json()] returns it.  A [dict] is the list
    of its items, read by first match; a [float] is its sign, mantissa and
    exponent, or an infinity or a NaN. *)
#[warnings="-register-all"]
Inductive json :=
  | JNull
  | JBool (b : bool)
  | JInt (z : Z)
  | JFloat (f : spec_float)
  | JStr (s : string)
  | JList (l : list json)
  | JDict (d : list (string * json)).

Abbreviation dict := (list (string * json)).

(** [k in d] and [d[k]]. *)
Fixpoint dict_lookup (d : dict) (k : string) : option json :=
  match d with
  | [] => None
  | (k', v) :: d => if String.eqb k' k then Some v else dict_lookup d k
  end.

(** [d.get(k)]. *)
Definition dict_get (d : dict) (k : string) : json :=
  default JNull (dict_lookup d k).

(** [isinstance(v, dict)]. *)
Definition is_dict (v : json) : bool :=
  match v with JDict _ => true | _ => false end.

(** [v.get(k)]: only a dict has the method. *)
Definition py_get (v : json) (k : string) : result json :=
  match v with
  | JDict d => Ok (dict_get d k)
  | _ => Raise AttributeError
  end.

(** [bool(v)]. *)
Definition truthy (v : json) : bool :=
  match v with
  | JNull => false
  | JBool b => b
  | JInt z => negb (Z.eqb z 0)
  | JFloat (S754_zero _) => false
  | JFloat _ => true
  | JStr s => negb (str_falsy s)
  | JList l => match l with [] => false | _ => true end
  | JDict d => match d with [] => false | _ => true end
  end.

(** [int(v)]: a float is truncated toward zero. *)
Definition py_int (v : json) : result Z :=
  match v with
  | JInt z => Ok z
  | JBool b => Ok (if b then 1 else 0)%Z
  | JFloat (S754_zero _) => Ok 0%Z
  | JFloat (S754_finite s m e) =>
      Ok (if s then - Z.shiftl (Z.pos m) e else Z.shiftl (Z.pos m) e)%Z
  | JFloat (S754_infinity _) => Raise OverflowError
  | JFloat S754_nan => Raise ValueError
  | JStr s =>
      match int_of_string s with
      | Some z => Ok z
      | None => Raise ValueError
      end
  | JNull | JList _ | JDict _ => Raise TypeError
  end.

Notation "'let?' x ':=' m 'in' k" := (result_bind m (λ x, k))
  (at level 10, x name, m at level 100, k at level 200).

Definition src_keys : list string :=
  ["src"; "src-switch"; "srcSwitch"; "source"; "src_switch"; "src_switch_dpid"].
Definition dst_keys : list string :=
  ["dst"; "dst-switch"; "dstSwitch"; "destination"; "dst_switch"; "dst_switch_dpid"].
Definition src_port_keys : list string :=
  ["src-port"; "src_port"; "srcPort"; "port1"; "srcPortNumber"].
Definition dst_port_keys : list string :=
  ["dst-port"; "dst_port"; "dstPort"; "port2"; "dstPortNumber"].
Definition nested_keys : list string := ["switchDPID"; "dpid"; "id"].

(** [e.get(k1) or e.get(k2) or ... or e.get(kn)]: the first truthy value,
    else the last one. *)
Fixpoint get_or (e : json) (keys : list string) : result json :=
  match keys with
  | [] => Ok JNull
  | k :: keys =>
      let? v := py_get e k in
      match keys with
      | [] => Ok v
      | _ => if truthy v then Ok v else get_or e keys
      end
  end.

(** [if isinstance(v, dict): v = v.get('switchDPID') or v.get('dpid') or
    v.get('id')]: the second probe, into a nested object. *)
Definition unwrap (v : json) : result json :=
  if is_dict v then get_or v nested_keys else Ok v.

Section Normalizer.
(** [str(v)] for a float, a list or a dict. *)
Variable str_other : json → string.

(** [str(v)]. *)
Definition py_str (v : json) : string :=
  match v with
  | JStr s => s
  | JNull => "None"
  | JBool b => if b then "True" else "False"
  | JInt z => str_of_int z
  | _ => str_other v
  end.

(** [get_port(e, *keys)]. *)
Fixpoint get_port (e : json) (keys : list string) : result port :=
  match keys with
  | [] => Ok None
  | k :: keys =>
      let? v := py_get e k in
      match v with
      | JNull => get_port e keys
      | _ =>
          match py_int v with
          | Ok n => Ok (Some n)
          | Raise _ =>
              match py_int (JStr (py_str v)) with
              | Ok n => Ok (Some n)
              | Raise _ => get_port e keys
              end
          end
      end
  end.

(** The body of the loop over [raw_links]: the link to append, if any. *)
Definition normalize_entry (entry : json) : result (option Link) :=
  if negb (is_dict entry) then Ok None
  else
    let? src := get_or entry src_keys in
    let? dst := get_or entry dst_keys in
    let? src_port := get_port entry src_port_keys in
    let? dst_port := get_port entry dst_port_keys in
    let? src := unwrap src in
    let? dst := unwrap dst in
    if negb (truthy src) || negb (truthy dst) then Ok None
    else Ok (Some (mkLink (py_str src) src_port (py_str dst) dst_port)).

Fixpoint normalize_loop (entries : list json) (normalized : list Link)
    : result (list Link) :=
  match entries with
  | [] => Ok normalized
  | entry :: entries =>
      let? o := normalize_entry entry in
      match o with
      | Some l => normalize_loop entries (normalized ++ [l])
      | None => normalize_loop entries normalized
      end
  end.

(** [get_topology_links], from the decoded answer [raw] on. *)
Definition get_topology_links (raw : json) : result (list Link) :=
  let raw_links :=
    match raw with
    | JDict d =>
        match dict_lookup d "links" with
        | Some v => v
        | None => raw
        end
    | _ => raw
    end in
  match raw_links with
  | JList entries => normalize_loop entries []
  | _ => Ok []
  end.
End Normalizer.

(** The value that the [or]-chain over [keys] selects in [d]: that of the
    first alias whose value is truthy. *)
Inductive selects (d : dict) : list string → json → Prop :=
  | selects_here k keys v :
      dict_get d k = v → truthy v = true → selects d (k :: keys) v
  | selects_later k keys v :
      truthy (dict_get d k) = false → selects d keys v →
      selects d (k :: keys) v.

(** The record reports the switch identifier [s] under [keys], directly or
    inside a nested object. *)
Definition reports (d : dict) (keys : list string) (s : string) : Prop :=
  selects d keys (JStr s) ∨
  ∃ inner, selects d keys (JDict inner) ∧ selects inner nested_keys (JStr s).

Definition none_truthy (d : dict) (keys : list string) : Prop :=
  ∀ k, k ∈ keys → truthy (dict_get d k) = false.

(** No switch identifier can be resolved under [keys]. *)
Definition unresolved (d : dict) (keys : list string) : Prop :=
  none_truthy d keys ∨
  ∃ inner, selects d keys (JDict inner) ∧ none_truthy inner nested_keys.

(** A port value from which [get_port] gets no integer: absent or null, or
    one on which both conversions raise. *)
Definition port_unknown (str_other : json → string) (v : json) : Prop :=
  v = JNull ∨
  (∀ n, py_int v ≠ Ok n) ∧ (∀ n, py_int (JStr (py_str str_other v)) ≠ Ok n).

(** ** Device Locator: the device directory *)

(** The ASCII characters that [str.strip()] removes: those of [int] and the
    four separators 28 to 31. *)
Definition is_strip_space (c : ascii) : bool :=
  let n := nat_of_ascii c in
  bool_decide (9 ≤ n ≤ 13) || bool_decide (28 ≤ n ≤ 32).

Fixpoint lstrip_by (p : ascii → bool) (s : string) : string :=
  match s with
  | String x s' => if p x then lstrip_by p s' else s
  | EmptyString => EmptyString
  end.

Fixpoint rstrip_by (p : ascii → bool) (s : string) : string :=
  match s with
  | String x s' =>
      match rstrip_by p s' with
      | EmptyString => if p x then EmptyString else String x EmptyString
      | r => String x r
      end
  | EmptyString => EmptyString
  end.

(** [s.strip()]. *)
Definition str_strip (s : string) : string :=
  rstrip_by is_strip_space (lstrip_by is_strip_space s).

(** [s.endswith(suffix)]. *)
Fixpoint endswith (s suffix : string) : bool :=
  String.eqb s suffix ||
  match s with
  | String _ s' => endswith s' suffix
  | EmptyString => false
  end.

(** ["{:02x}".format(n)]: lower-case hexadecimal, at least two characters,
    zero-padded after the sign. *)
Definition format_02x (n : Z) : string :=
  let s := HexadecimalString.NilZero.string_of_int (Z.to_hex_int n) in
  if bool_decide (String.length s < 2) then "0" +:+ s else s.

(** [isinstance(v, str)]. *)
Definition is_str (v : json) : bool :=
  match v with JStr _ => true | _ => false end.

(** [get_devices], from the decoded answer [data] on. *)
Definition get_devices (data : json) : result (list json) :=
  match data with
  | JDict _ => Ok [data]
  | JList l =>
      if forallb is_str l then Ok ((λ x, JDict [("id", x)]) <$> l)
      else Ok ((λ x, if is_dict x then x else JDict [("raw", x)]) <$> l)
  | _ => Raise ValueError
  end.

Definition ipv4_keys : list string := ["ipv4"; "ipv4Address"; "ip"; "ipv4Addresses"].
Definition mac_keys : list string := ["mac"; "macAddress"; "macs"].

(** [if isinstance(v, str): v = [v]], then [isinstance(v, list)]: the list
    to search, if there is one. *)
Definition as_list (v : json) : option (list json) :=
  match v with
  | JStr _ => Some [v]
  | JList l => Some l
  | _ => None
  end.

(** The loop over [ipv4s]: whatever [ip.strip().endswith(...)] raises on an
    entry that is no string is passed over. *)
Fixpoint ip_matches (suffix : string) (ips : list json) : bool :=
  match ips with
  | [] => false
  | JStr s :: ips => endswith (str_strip s) suffix || ip_matches suffix ips
  | _ :: ips => ip_matches suffix ips
  end.

(** The loop over [macs], which has no [try]: [m.strip()] raises on an entry
    that is no string. *)
Fixpoint mac_matches (suffix : string) (macs : list json) : result bool :=
  match macs with
  | [] => Ok false
  | JStr s :: macs =>
      if endswith (str_strip s) suffix then Ok true else mac_matches suffix macs
  | _ :: _ => Raise AttributeError
  end.

(** The loop of [find_device_by_name] for a given [host_num]. *)
Fixpoint find_device_loop (host_num : option Z) (devices : list json)
    : result (option json) :=
  match devices with
  | [] => Ok None
  | dev :: devices =>
      if negb (is_dict dev) then find_device_loop host_num devices
      else
        let? ipv4s := get_or dev ipv4_keys in
        let ip_hit :=
          match as_list ipv4s, host_num with
          | Some ips, Some n => ip_matches ("." +:+ str_of_int n) ips
          | _, _ => false
          end in
        if ip_hit then Ok (Some dev)
        else
          let? macs := get_or dev mac_keys in
          let? mac_hit :=
            match as_list macs, host_num with
            | Some ms, Some n => mac_matches (format_02x n) ms
            | _, _ => Ok false
            end in
          if mac_hit then Ok (Some dev)
          else find_device_loop host_num devices
  end.

Definition find_device_by_name (devices : list json) (hostname : string)
    : result (option json) :=
  find_device_loop (int_of_string (lstrip_char "h" hostname)) devices.

Definition attachment_keys : list string :=
  ["attachmentPoint"; "attachmentPoints"; "attachment_point"; "attachment"].
Definition attachment_switch_keys : list string :=
  ["switchDPID"; "switch"; "switchId"; "dpid"].
Definition attachment_port_keys : list string :=
  ["port"; "portNumber"; "port_no"; "port_no"].

Section DeviceLocator.
(** [str(v)] for a float, a list or a dict. *)
Variable str_other : json → string.

(** [pick_attachment] of [main]. *)
Definition pick_attachment (dev : option json) : result (option attachment) :=
  match dev with
  | None => Ok None
  | Some dev =>
      let? ap := get_or dev attachment_keys in
      match ap with
      | JList (point :: _) =>
          let? sw := get_or point attachment_switch_keys in
          let? port := get_or point attachment_port_keys in
          match py_int port with
          | Ok n => Ok (Some (py_str str_other sw, n))
          | Raise _ => Ok None
          end
      | _ => Ok None
      end
  end.

(** Lines 272 to 296 of [main], from the outcome of the device query on: the
    decoded answer, or the exception the request raised. *)
Definition device_stage (args : Args) (devices_answer : result json)
    : result (option attachment * option attachment) :=
  let? data := devices_answer in
  let? devices := get_devices data in
  let? src_dev := find_device_by_name devices (arg_src args) in
  let? dst_dev := find_device_by_name devices (arg_dst args) in
  let? src_ap := pick_attachment src_dev in
  let? dst_ap := pick_attachment dst_dev in
  Ok (src_ap, dst_ap).

(** The whole script, from the outcomes of its two queries on. *)
Definition lightpath (args : Args) (devices_answer links_answer : result json)
    : prog unit :=
  main args (device_stage args devices_answer)
       (let? raw := links_answer in get_topology_links str_other raw).
End DeviceLocator.

(** ** Flow Installer: the rules of a run *)

(** The request that one iteration of an installation loop posts for the
    hop [x] of [enumerate(path)], given that its switch is a key of [hp]. *)
Definition rule_of (fl name_prefix : string) (hp : hop_map) (last_resort : Z)
    (x : nat * string) : event :=
  let io := default (None, None) (hp !! x.2) in
  push_flow fl x.2 (name_prefix +:+ str_of_int (Z.of_nat (x.1 + 1))) io.1
            (match io.2 with None => Some last_resort | p => p end)
            default_priority.

(** A field of a posted rule. *)
Definition rule_field (e : event) (key : string) : option string :=
  match e with
  | Post _ body => flow_field body key
  | Get _ => None
  end.

Definition fwd_prefix (args : Args) : string :=
  "fwd_" +:+ arg_src args +:+ "_to_" +:+ arg_dst args +:+ "_".
Definition rev_prefix (args : Args) : string :=
  "rev_" +:+ arg_dst args +:+ "_to_" +:+ arg_src args +:+ "_".

(** ** Device Locator: what a match is *)

(** One of the IPv4 addresses of [dev] ends, once stripped, in a dot and the
    decimal numeral of [n]. *)
Definition ip_match (n : Z) (dev : json) : Prop :=
  ∃ v ips s p,
    get_or dev ipv4_keys = Ok v ∧ as_list v = Some ips ∧ JStr s ∈ ips ∧
    str_strip s = p +:+ "." +:+ str_of_int n.

(** One of the MAC addresses of [dev] ends, once stripped, in the
    hexadecimal numeral of [n], of two digits at least. *)
Definition mac_match (n : Z) (dev : json) : Prop :=
  ∃ v macs s p,
    get_or dev mac_keys = Ok v ∧ as_list v = Some macs ∧ JStr s ∈ macs ∧
    str_strip s = p +:+ format_02x n.

(** The record [dev] is taken for the host of ordinal [n]. *)
Definition device_matches (n : Z) (dev : json) : Prop :=
  is_dict dev = true ∧ (ip_match n dev ∨ mac_match n dev).

(** A record that lists, among its MAC addresses, a value that is no
    string. *)
Definition mac_malformed (dev : json) : Prop :=
  ∃ v macs x,
    is_dict dev = true ∧ get_or dev mac_keys = Ok v ∧
    as_list v = Some macs ∧ x ∈ macs ∧ is_str x = false.

(** * Theorems *)

(** ** Graph Builder *)

Lemma neighbors_empty sw : neighbors ∅ sw = [].
Proof. unfold neighbors. by rewrite lookup_empty. Qed.

Lemma neighbors_graph_append g sw e a :
  neighbors (graph_append g sw e) a =
  if decide (sw = a) then neighbors g a ++ [e] else neighbors g a.
Proof.
  unfold graph_append. unfold neighbors at 1.
  rewrite lookup_insert. destruct (decide (sw = a)) as [->|]; done.
Qed.

Lemma elem_of_neighbors_graph_append g sw e a x :
  x ∈ neighbors (graph_append g sw e) a ↔
  x ∈ neighbors g a ∨ (sw = a ∧ x = e).
Proof.
  rewrite neighbors_graph_append. destruct (decide (sw = a)) as [->|Hne].
  - rewrite elem_of_app, list_elem_of_singleton. naive_solver.
  - naive_solver.
Qed.

Lemma symmetric_empty : symmetric ∅.
Proof. intros a b p q. rewrite !neighbors_empty. split; inversion 1. Qed.

Lemma symmetric_add_link g l : symmetric g → symmetric (add_link g l).
Proof.
  intros Hs. unfold add_link.
  destruct (str_falsy (src l) || str_falsy (dst l)); [done|].
  intros a b p q. rewrite !elem_of_neighbors_graph_append.
  specialize (Hs a b p q). naive_solver.
Qed.

Lemma fold_add_link_symmetric links g :
  symmetric g → symmetric (fold_left add_link links g).
Proof.
  revert g. induction links as [|l links IH]; intros g Hg; simpl; [done|].
  apply IH. by apply symmetric_add_link.
Qed.

(** C2: the graph built from any list of normalized links is symmetric:
    [(B, p, q)] is listed under [A] exactly when [(A, q, p)] is listed
    under [B]. *)
Theorem build_switch_graph_symmetric (links : list Link) :
  symmetric (build_switch_graph links).
Proof. apply fold_add_link_symmetric, symmetric_empty. Qed.

(** ** Port Resolver *)

Lemma first_port_toward_entry adj target :
  first_port_toward adj target =
  match first_entry_toward adj target with
  | Some e => entry_local e
  | None => None
  end.
Proof.
  induction adj as [|[[nbr p] q] adj IH]; simpl; [done|].
  unfold entry_nbr; simpl. by destruct (String.eqb nbr target).
Qed.

Lemma first_entry_toward_snoc adj e target :
  first_entry_toward (adj ++ [e]) target =
  match first_entry_toward adj target with
  | Some x => Some x
  | None => if String.eqb (entry_nbr e) target then Some e else None
  end.
Proof.
  induction adj as [|x adj IH]; simpl; [done|].
  by destruct (String.eqb (entry_nbr x) target).
Qed.

Lemma first_entry_toward_nbr adj target e :
  first_entry_toward adj target = Some e → entry_nbr e = target ∧ e ∈ adj.
Proof.
  induction adj as [|x adj IH]; simpl; [done|].
  destruct (String.eqb_spec (entry_nbr x) target) as [Heq|Hne].
  - intros [= ->]. split; [done|]. apply list_elem_of_here.
  - intros H. destruct (IH H) as [? ?]. split; [done|].
    by apply list_elem_of_further.
Qed.

(** Reading the dictionary built by the enumerate loop. *)
Section HopMap.
Context {V : Type} (f : nat → string → V).

Let step (hp : gmap string V) (x : nat * string) : gmap string V :=
  let '(i, sw) := x in <[sw := f i sw]> hp.

Lemma fold_hops_notin l k hp sw :
  sw ∉ l →
  fold_left step (combine (seq k (length l)) l) hp !! sw = hp !! sw.
Proof.
  revert k hp. induction l as [|x l IH]; intros k hp Hnot; simpl; [done|].
  apply not_elem_of_cons in Hnot as [Hne Hnot].
  rewrite IH by done. by rewrite lookup_insert_ne.
Qed.

Lemma fold_hops_lookup l k hp i sw :
  NoDup l → l !! i = Some sw →
  fold_left step (combine (seq k (length l)) l) hp !! sw = Some (f (k + i) sw).
Proof.
  revert k hp i. induction l as [|x l IH]; intros k hp i Hnd Hi; [done|].
  apply NoDup_cons in Hnd as [Hx Hnd]. simpl.
  destruct i as [|i]; simpl in Hi.
  - injection Hi as ->. rewrite fold_hops_notin by done.
    rewrite lookup_insert_eq. by rewrite Nat.add_0_r.
  - rewrite (IH (S k) _ i) by done. f_equal. f_equal. lia.
Qed.

Lemma fold_hops_dom l k hp :
  dom (fold_left step (combine (seq k (length l)) l) hp)
  = list_to_set l ∪ dom hp.
Proof.
  revert k hp. induction l as [|x l IH]; intros k hp; simpl.
  - set_solver.
  - rewrite IH, dom_insert_L. set_solver.
Qed.
End HopMap.

Lemma path_ports_lookup g switch_path i sw :
  NoDup switch_path → switch_path !! i = Some sw →
  path_ports_for_switches g switch_path !! sw
  = Some (hop_ports_at g switch_path i sw).
Proof.
  intros Hnd Hi. unfold path_ports_for_switches, enumerate.
  by rewrite (fold_hops_lookup (hop_ports_at g switch_path) _ 0 ∅ i sw).
Qed.

Lemma dom_path_ports g switch_path :
  dom (path_ports_for_switches g switch_path) = list_to_set switch_path.
Proof.
  unfold path_ports_for_switches, enumerate.
  rewrite (fold_hops_dom (hop_ports_at g switch_path) _ 0 ∅). set_solver.
Qed.

Lemma ingress_at g switch_path i prev sw :
  NoDup switch_path →
  switch_path !! i = Some prev → switch_path !! S i = Some sw →
  ingress (path_ports_for_switches g switch_path) sw
  = first_port_toward (neighbors g sw) prev.
Proof.
  intros Hnd Hp Hs. unfold ingress.
  rewrite (path_ports_lookup g _ (S i) sw) by done.
  unfold hop_ports_at; simpl. rewrite Nat.sub_0_r, Hp. done.
Qed.

Lemma egress_at g switch_path i sw nxt :
  NoDup switch_path →
  switch_path !! i = Some sw → switch_path !! S i = Some nxt →
  egress (path_ports_for_switches g switch_path) sw
  = first_port_toward (neighbors g sw) nxt.
Proof.
  intros Hnd Hs Hn. unfold egress.
  rewrite (path_ports_lookup g _ i sw) by done.
  unfold hop_ports_at; simpl.
  apply lookup_lt_Some in Hn as Hlt.
  rewrite bool_decide_eq_true_2 by lia.
  by rewrite Nat.add_1_r, Hn.
Qed.

(** Resolution on the reversed sequence swaps the two roles at every hop. *)
Lemma hop_ports_at_reverse g switch_path i sw :
  i < length switch_path →
  hop_ports_at g (reverse switch_path) (length switch_path - S i) sw
  = ((hop_ports_at g switch_path i sw).2, (hop_ports_at g switch_path i sw).1).
Proof.
  intros Hi. unfold hop_ports_at; simpl. rewrite length_reverse. f_equal.
  - destruct (decide (i < length switch_path - 1)) as [Hlt|Hge].
    + rewrite !bool_decide_eq_true_2 by lia.
      rewrite reverse_lookup by lia.
      by replace (length switch_path - S (length switch_path - S i - 1))
        with (i + 1) by lia.
    + by rewrite !bool_decide_eq_false_2 by lia.
  - destruct (decide (0 < i)) as [Hlt|Hge].
    + rewrite !bool_decide_eq_true_2 by lia.
      rewrite reverse_lookup by lia.
      by replace (length switch_path - S (length switch_path - S i + 1))
        with (i - 1) by lia.
    + by rewrite !bool_decide_eq_false_2 by lia.
Qed.

Lemma path_ports_reverse g switch_path i sw :
  NoDup switch_path → switch_path !! i = Some sw →
  path_ports_for_switches g (reverse switch_path) !! sw
  = Some ((hop_ports_at g switch_path i sw).2,
          (hop_ports_at g switch_path i sw).1).
Proof.
  intros Hnd Hi. apply lookup_lt_Some in Hi as Hlt.
  rewrite (path_ports_lookup g _ (length switch_path - S i) sw).
  - by rewrite hop_ports_at_reverse.
  - by rewrite reverse_Permutation.
  - rewrite reverse_lookup by lia. rewrite <- Hi. f_equal. lia.
Qed.


(** ** Port pairing on built graphs *)

Lemma first_entries_paired_empty : first_entries_paired ∅.
Proof. intros a b _. by rewrite !neighbors_empty. Qed.

Lemma first_entries_paired_add_link g l :
  first_entries_paired g → first_entries_paired (add_link g l).
Proof.
  intros Hp. unfold add_link.
  destruct (str_falsy (src l) || str_falsy (dst l)); [done|].
  intros a b Hab. specialize (Hp a b Hab).
  rewrite !neighbors_graph_append.
  repeat case_decide; subst;
    rewrite ?first_entry_toward_snoc; unfold entry_nbr; simpl;
    repeat match goal with
    | |- context [String.eqb ?x ?y] => destruct (String.eqb_spec x y); subst
    end; try congruence;
    rewrite ?Hp;
    repeat match goal with
    | |- context [first_entry_toward ?x ?y] => destruct (first_entry_toward x y)
    end; done.
Qed.

Lemma build_switch_graph_paired links :
  first_entries_paired (build_switch_graph links).
Proof.
  unfold build_switch_graph. generalize first_entries_paired_empty.
  generalize (∅ : graph). induction links as [|l links IH]; intros g Hg; [done|].
  simpl. apply IH. by apply first_entries_paired_add_link.
Qed.

Lemma first_port_toward_paired g a b :
  first_entries_paired g → a ≠ b →
  first_port_toward (neighbors g b) a = peer_port_toward g a b.
Proof.
  intros Hp Hab. rewrite first_port_toward_entry. unfold peer_port_toward.
  rewrite (Hp a b Hab). by destruct (first_entry_toward (neighbors g a) b).
Qed.

(** ** Path Engine: paths *)

Lemma is_path_singleton g a : is_path g [a].
Proof. split; [done|]. intros i x y _ Hy. by destruct i. Qed.

Lemma is_path_snoc g p u v :
  is_path g p → last p = Some u → adjacent g u v → is_path g (p ++ [v]).
Proof.
  intros [Hne Hstep] Hlast Hadj. split; [by destruct p|].
  intros i a b Ha Hb.
  destruct (decide (S i < length p)) as [Hlt|Hge].
  - rewrite lookup_app_l in Ha by lia. rewrite lookup_app_l in Hb by lia. eauto.
  - apply lookup_lt_Some in Hb as Hlen. rewrite length_app in Hlen; simpl in Hlen.
    assert (S i = length p) as Hi by lia.
    rewrite lookup_app_l in Ha by lia.
    rewrite lookup_app_r in Hb by lia.
    rewrite Hi, Nat.sub_diag in Hb. injection Hb as <-.
    rewrite last_lookup in Hlast. rewrite <- Hi in Hlast; simpl in Hlast.
    by replace a with u by congruence.
Qed.

Lemma connects_prefix g a p i u :
  is_path g p → head p = Some a → p !! i = Some u →
  connects g a u (take (S i) p) ∧ length (take (S i) p) = S i.
Proof.
  intros [Hne Hstep] Hhead Hi. apply lookup_lt_Some in Hi as Hlt.
  assert (length (take (S i) p) = S i) as Hlen by (rewrite length_take; lia).
  split; [|done]. split; [split|split].
  - by destruct p.
  - intros j x y Hx Hy. apply lookup_lt_Some in Hy as Hj. rewrite Hlen in Hj.
    rewrite lookup_take_lt in Hx by lia. rewrite lookup_take_lt in Hy by lia. eauto.
  - by destruct p.
  - rewrite last_lookup, Hlen; simpl. by rewrite lookup_take_lt by lia.
Qed.

(** A sequence that starts inside a set and ends outside leaves it somewhere. *)
Lemma crossing (V : gset string) (p : list string) a w :
  head p = Some a → a ∈ V → last p = Some w → w ∉ V →
  ∃ i u v, p !! i = Some u ∧ p !! S i = Some v ∧ u ∈ V ∧ v ∉ V.
Proof.
  revert a. induction p as [|x p IH]; intros a Hhead Ha Hlast Hw; [done|].
  injection Hhead as ->. destruct p as [|y p].
  - injection Hlast as ->. done.
  - destruct (decide (y ∈ V)) as [Hy|Hy].
    + destruct (IH y) as (i & u & v & Hu & Hv & ? & ?); [done..|].
      exists (S i), u, v. done.
    + exists 0, a, y. done.
Qed.

Lemma closed_mono g (V V' : gset string) u :
  V ⊆ V' → closed g V u → closed g V' u.
Proof. intros Hsub Hc v Hv. apply Hsub, Hc, Hv. Qed.

Lemma queued_ok_mono g a (V V' : gset string) p :
  V ⊆ V' → queued_ok g a V p → queued_ok g a V' p.
Proof.
  intros Hsub (Hp & Hh & Hnd & Hvis & Hmin). repeat split; try done.
  - by destruct Hp.
  - by destruct Hp.
  - intros x Hx. by apply Hsub, Hvis.
Qed.

Lemma levels_snoc q p :
  levels q → Forall (λ p1, length p1 ≤ length p ≤ S (length p1)) q →
  levels (q ++ [p]).
Proof.
  induction q as [|x q IH]; simpl; intros Hl Hall.
  - split; [constructor | done].
  - destruct Hl as [Hx Hl]. apply Forall_cons in Hall as [Hxp Hall].
    split; [|by apply IH]. apply Forall_app. split; [done|].
    by apply Forall_singleton.
Qed.

Lemma levels_head_le p q x :
  levels (p :: q) → x ∈ p :: q → length p ≤ length x ≤ S (length p).
Proof.
  intros [Hall _] Hx. apply elem_of_cons in Hx as [->|Hx]; [lia|].
  rewrite Forall_forall in Hall. by apply Hall.
Qed.

(** ** Path Engine: one scan *)

(** No path from the source to an unmarked switch is as short as the path
    at the head of the open list. *)
Lemma frontier g a d path rest (V : gset string) w p' :
  bfs_inv g a d (path :: rest) V → connects g a w p' → w ∉ V →
  length path < length p'.
Proof.
  intros (Ha & _ & Hok & Hopen & Hlev) (Hp' & Hhead & Hlast) Hw.
  destruct (crossing V p' a w) as (i & u & v & Hu & Hv & HuV & HvV); [done..|].
  assert (adjacent g u v) as Hadj by (destruct Hp' as [_ Hs]; eauto).
  destruct (Hopen u HuV) as [(po & Hpo & Hlastpo)|Hclosed].
  - rewrite Forall_forall in Hok. destruct (Hok po Hpo) as (_ & _ & _ & _ & Hmin).
    destruct (connects_prefix g a p' i u) as [Hc Hlen]; [done..|].
    specialize (Hmin u _ Hlastpo Hc). rewrite Hlen in Hmin.
    pose proof (levels_head_le _ _ _ Hlev Hpo) as Hle.
    apply lookup_lt_Some in Hv. lia.
  - by specialize (Hclosed v Hadj).
Qed.

Lemma neighbor_names_spec g node e :
  e ∈ neighbors g node → entry_nbr e ∈ neighbor_names g.
Proof.
  unfold neighbors, neighbor_names, all_neighbors. intros He.
  destruct (g !! node) as [adj|] eqn:Hg; simpl in He; [|by inversion He].
  apply elem_of_list_to_set, list_elem_of_bind. exists (node, adj). split.
  - simpl. apply list_elem_of_fmap. by exists e.
  - by apply elem_of_map_to_list.
Qed.

Lemma size_neighbor_names g : size (neighbor_names g) ≤ length (all_neighbors g).
Proof.
  unfold neighbor_names. induction (all_neighbors g) as [|x l IH].
  - rewrite list_to_set_nil, size_empty. done.
  - rewrite list_to_set_cons; simpl.
    destruct (decide (x ∈ (list_to_set l : gset string))) as [Hin|Hnin].
    + replace ({[x]} ∪ list_to_set l) with (list_to_set l : gset string)
        by set_solver. lia.
    + rewrite size_union by set_solver. rewrite size_singleton. lia.
Qed.

Lemma size_mark (U V : gset string) x :
  x ∈ U → x ∉ V → S (size (U ∖ ({[x]} ∪ V))) = size (U ∖ V).
Proof.
  intros HU HV.
  replace (U ∖ V) with (({[x]} : gset string) ∪ U ∖ ({[x]} ∪ V)).
  - rewrite (size_union ({[x]} : gset string)) by set_solver.
    by rewrite size_singleton.
  - apply set_eq. intros y. rewrite !elem_of_union, !elem_of_difference,
      elem_of_union, elem_of_singleton.
    destruct (decide (y = x)) as [->|]; naive_solver.
Qed.

(** The scan of the neighbours of the last switch of [path]. *)
Lemma scan_neighbors_spec g a d path node adj q (V : gset string) :
  last path = Some node →
  (∀ e, e ∈ adj → e ∈ neighbors g node) →
  bfs_inv g a d (path :: q) V →
  match scan_neighbors d path adj q V with
  | Found newpath => bfs_post g a d (Some newpath)
  | Scanned q' V' =>
      bfs_inv g a d (path :: q') V' ∧
      (∀ e, e ∈ adj → entry_nbr e ∈ V') ∧ V ⊆ V' ∧
      length q' + size (neighbor_names g ∖ V') = length q + size (neighbor_names g ∖ V)
  end.
Proof.
  intros Hlast. revert q V.
  induction adj as [|[[nbr sp] dp] adj IH]; intros q V Hadj Hinv; simpl.
  { split; [done|]. split; [by intros e He; inversion He|]. done. }
  assert (adjacent g node nbr) as Hedge.
  { exists (nbr, sp, dp). split; [|done]. apply Hadj, list_elem_of_here. }
  assert (∀ e, e ∈ adj → e ∈ neighbors g node) as Hadj'.
  { intros e He. by apply Hadj, list_elem_of_further. }
  destruct (decide (nbr ∈ V)) as [Hin|Hnin].
  { specialize (IH q V Hadj' Hinv).
    destruct (scan_neighbors d path adj q V) as [|q' V']; [done|].
    destruct IH as (Hinv' & Hall & Hsub & Hsize).
    split; [done|]. split; [|done].
    intros e He. apply elem_of_cons in He as [->|He]; [by apply Hsub|by apply Hall]. }
  pose proof Hinv as (Ha & Hd & Hok & Hopen & Hlev).
  apply Forall_cons in Hok as Hok'. destruct Hok' as [Hpath Hq].
  destruct Hpath as (Hp & Hhead & Hnd & Hvis & Hmin).
  assert (connects g a nbr (path ++ [nbr])) as Hconn.
  { split; [by eapply is_path_snoc|]. split; [|apply last_snoc].
    rewrite head_snoc. by rewrite Hhead. }
  assert (NoDup (path ++ [nbr])) as Hnd'.
  { apply NoDup_app. split; [done|]. split; [|apply NoDup_singleton].
    intros x Hx Hx'. apply list_elem_of_singleton in Hx' as ->. by apply Hnin, Hvis. }
  assert (∀ p', connects g a nbr p' → length (path ++ [nbr]) ≤ length p') as Hshort.
  { intros p' Hp'. rewrite length_app; simpl.
    pose proof (frontier g a d path q V nbr p' Hinv Hp' Hnin). lia. }
  destruct (String.eqb_spec nbr d) as [->|Hne].
  { done. }
  assert (V ⊆ {[nbr]} ∪ V) as Hsub by set_solver.
  assert (bfs_inv g a d (path :: q ++ [path ++ [nbr]]) ({[nbr]} ∪ V)) as Hinv'.
  { split; [set_solver|]. split; [set_solver|]. split; [|split].
    - rewrite app_comm_cons. apply Forall_app. split.
      + eapply Forall_impl; [exact Hok|]. intros p. by apply queued_ok_mono.
      + apply Forall_singleton. destruct Hconn as (Hnp & Hnh & Hl).
        split; [done|]. split; [done|]. split; [done|]. split.
        * intros x Hx. apply elem_of_app in Hx as [Hx|Hx]; [set_solver|].
          apply list_elem_of_singleton in Hx as ->. set_solver.
        * intros u p' Hu. rewrite Hl in Hu. injection Hu as <-. apply Hshort.
    - intros u Hu. apply elem_of_union in Hu as [Hu|Hu].
      + apply elem_of_singleton in Hu as ->. left. exists (path ++ [nbr]).
        split; [|apply last_snoc]. rewrite app_comm_cons.
        apply elem_of_app. right. apply list_elem_of_here.
      + destruct (Hopen u Hu) as [(p & Hpin & Hpl)|Hc].
        * left. exists p. split; [|done]. rewrite app_comm_cons.
          apply elem_of_app. by left.
        * right. by eapply closed_mono.
    - rewrite app_comm_cons. apply levels_snoc; [done|].
      rewrite Forall_forall. intros x Hx. rewrite length_app; simpl.
      pose proof (levels_head_le _ _ _ Hlev Hx). lia. }
  specialize (IH _ _ Hadj' Hinv').
  destruct (scan_neighbors d path adj (q ++ [path ++ [nbr]]) ({[nbr]} ∪ V))
    as [|q' V']; [done|].
  destruct IH as (Hinv'' & Hall & Hsub' & Hsize).
  split; [done|]. split; [|split].
  - intros e He. apply elem_of_cons in He as [->|He]; [|by apply Hall].
    apply Hsub'. set_solver.
  - set_solver.
  - rewrite Hsize, length_app; simpl.
    rewrite <- (size_mark (neighbor_names g) V nbr); [lia| |done].
    by apply (neighbor_names_spec g node (nbr, sp, dp)), Hadj, list_elem_of_here.
Qed.

(** ** Path Engine: the loop *)

Lemma bfs_inv_close g a d path node q (V : gset string) :
  last path = Some node → closed g V node →
  bfs_inv g a d (path :: q) V → bfs_inv g a d q V.
Proof.
  intros Hlast Hclosed (Ha & Hd & Hok & Hopen & Hlev).
  apply Forall_cons in Hok as [_ Hok]. destruct Hlev as [_ Hlev].
  split; [done|]. split; [done|]. split; [done|]. split; [|done].
  intros u Hu. destruct (Hopen u Hu) as [(p & Hp & Hpl)|Hc]; [|by right].
  apply elem_of_cons in Hp as [->|Hp].
  - right. by replace u with node by congruence.
  - left. by exists p.
Qed.

Lemma bfs_inv_exhausted g a d (V : gset string) :
  bfs_inv g a d [] V → bfs_post g a d None.
Proof.
  intros (Ha & Hd & _ & Hopen & _) p' (Hp' & Hhead & Hlast).
  destruct (crossing V p' a d) as (i & u & v & Hu & Hv & HuV & HvV); [done..|].
  destruct (Hopen u HuV) as [(p & Hp & _)|Hc]; [by inversion Hp|].
  apply HvV, Hc. destruct Hp' as [_ Hstep]. eauto.
Qed.

Lemma bfs_inv_init g a d : a ≠ d → bfs_inv g a d [[a]] {[a]}.
Proof.
  intros Hne. split; [set_solver|]. split; [set_solver|]. split; [|split].
  - apply Forall_singleton. split; [apply is_path_singleton|].
    split; [done|]. split; [apply NoDup_singleton|]. split; [set_solver|].
    intros u p' _ ((Hnil & _) & _). destruct p'; simpl; [done|lia].
  - intros u Hu. left. exists [a]. split; [apply list_elem_of_here|].
    apply elem_of_singleton in Hu as ->. done.
  - simpl. split; [constructor|done].
Qed.

(** With enough fuel the loop returns, and what it returns is right. *)
Lemma bfs_loop_spec g a d fuel q (V : gset string) :
  bfs_inv g a d q V →
  length q + size (neighbor_names g ∖ V) < fuel →
  ∃ r, bfs_loop fuel g d q V = Return r ∧ bfs_post g a d r.
Proof.
  revert q V. induction fuel as [|fuel IH]; intros q V Hinv Hfuel; [lia|].
  simpl. destruct q as [|path q].
  { exists None. split; [done|]. by eapply bfs_inv_exhausted. }
  pose proof Hinv as (_ & _ & Hok & _ & _).
  apply Forall_cons in Hok as [(Hp & _) _].
  destruct (last path) as [node|] eqn:Hlast.
  2:{ apply last_None in Hlast. by destruct Hp. }
  pose proof (scan_neighbors_spec g a d path node (neighbors g node) q V
                Hlast (λ e He, He) Hinv) as Hscan.
  destruct (scan_neighbors d path (neighbors g node) q V) as [newpath|q' V'].
  { exists (Some newpath). done. }
  destruct Hscan as (Hinv' & Hall & Hsub & Hsize).
  apply IH.
  - eapply bfs_inv_close; [done| |done].
    intros v (e & He & <-). by apply Hall.
  - simpl in Hfuel. lia.
Qed.

Lemma bfs_run_spec g a d :
  a ≠ d → ∃ r, bfs_run g a d = Return r ∧ bfs_post g a d r.
Proof.
  intros Hne. apply bfs_loop_spec; [by apply bfs_inv_init|].
  unfold bfs_fuel; simpl.
  pose proof (size_neighbor_names g).
  assert (neighbor_names g ∖ {[a]} ⊆ neighbor_names g) as Hsub by set_solver.
  apply subseteq_size in Hsub. lia.
Qed.

(** More fuel does not change what the loop returns. *)
Lemma bfs_loop_fuel_mono g d fuel fuel' q (V : gset string) r :
  bfs_loop fuel g d q V = Return r → fuel ≤ fuel' →
  bfs_loop fuel' g d q V = Return r.
Proof.
  revert fuel' q V. induction fuel as [|fuel IH]; intros fuel' q V Hr Hle; [done|].
  destruct fuel' as [|fuel']; [lia|]. simpl in *.
  destruct q as [|path q]; [done|].
  destruct (last path); [|done].
  destruct (scan_neighbors d path _ q V); [done|].
  apply IH; [done|lia].
Qed.

Lemma shortest_switch_path_post g a d :
  bfs_post g a d (shortest_switch_path g a d).
Proof.
  unfold shortest_switch_path. destruct (String.eqb_spec a d) as [<-|Hne].
  - split; [|split].
    + split; [apply is_path_singleton|done].
    + apply NoDup_singleton.
    + intros p' ((Hnil & _) & _). destruct p'; simpl; [done|lia].
  - destruct (bfs_run_spec g a d Hne) as (r & -> & Hpost). done.
Qed.

(** C1: for every graph and every two switches the search ends by a
    [return] within the iterations granted (and with any larger allowance);
    a returned path connects the source to the destination, hence is neither
    empty nor partial, and no connecting path has fewer hops; [None] is
    returned exactly when no path connects the two. *)
Theorem shortest_switch_path_shortest (g : graph) (src_sw dst_sw : string) :
  (∃ r, shortest_switch_path g src_sw dst_sw = r ∧
        (src_sw ≠ dst_sw →
         ∀ fuel, bfs_fuel g ≤ fuel →
           bfs_loop fuel g dst_sw [[src_sw]] {[src_sw]} = Return r)) ∧
  (∀ p, shortest_switch_path g src_sw dst_sw = Some p →
        connects g src_sw dst_sw p ∧
        ∀ p', connects g src_sw dst_sw p' → hops p ≤ hops p') ∧
  (shortest_switch_path g src_sw dst_sw = None ↔
   ¬ ∃ p, connects g src_sw dst_sw p).
Proof.
  pose proof (shortest_switch_path_post g src_sw dst_sw) as Hpost.
  split; [|split].
  - eexists. split; [done|]. intros Hne fuel Hfuel.
    destruct (bfs_run_spec g src_sw dst_sw Hne) as (r & Hrun & _).
    unfold shortest_switch_path.
    destruct (String.eqb_spec src_sw dst_sw) as [|_]; [done|].
    rewrite Hrun. by eapply bfs_loop_fuel_mono.
  - intros p Hp. rewrite Hp in Hpost. destruct Hpost as (Hc & _ & Hmin).
    split; [done|]. intros p' Hp'. specialize (Hmin p' Hp'). unfold hops. lia.
  - destruct (shortest_switch_path g src_sw dst_sw) as [p|]; simpl in Hpost.
    + split; [done|]. intros Hno. exfalso. apply Hno. exists p. by destruct Hpost.
    + split; [|done]. intros _ [p Hp]. by apply (Hpost p).
Qed.

(** C10: a returned path starts at the source, ends at the destination and
    repeats no switch, so the dictionary of hop ports holds, under each
    switch of the path, the ports computed at that hop, and has as many keys
    as the path has hops. *)
Theorem shortest_switch_path_simple (g : graph) (src_sw dst_sw : string)
    (p : list string) :
  shortest_switch_path g src_sw dst_sw = Some p →
  head p = Some src_sw ∧ last p = Some dst_sw ∧ NoDup p ∧
  (∀ i sw, p !! i = Some sw →
     path_ports_for_switches g p !! sw = Some (hop_ports_at g p i sw)) ∧
  size (path_ports_for_switches g p) = length p.
Proof.
  intros Hp. pose proof (shortest_switch_path_post g src_sw dst_sw) as Hpost.
  rewrite Hp in Hpost. destruct Hpost as ((_ & Hh & Hl) & Hnd & _).
  split; [done|]. split; [done|]. split; [done|]. split.
  - intros i sw Hi. by apply path_ports_lookup.
  - rewrite <- size_dom. rewrite (dom_path_ports g p).
    by apply size_list_to_set.
Qed.

Lemma shortest_switch_path_simple_witness :
  shortest_switch_path line_graph "00:00:00:00:00:00:00:01" "00:00:00:00:00:00:00:03"
    = Some line_path ∧
  (head line_path = Some "00:00:00:00:00:00:00:01" ∧
   last line_path = Some "00:00:00:00:00:00:00:03" ∧ NoDup line_path ∧
   (∀ i sw, line_path !! i = Some sw →
      path_ports_for_switches line_graph line_path !! sw
      = Some (hop_ports_at line_graph line_path i sw)) ∧
   size (path_ports_for_switches line_graph line_path) = length line_path).
Proof.
  assert (shortest_switch_path line_graph "00:00:00:00:00:00:00:01"
            "00:00:00:00:00:00:00:03" = Some line_path) as H
    by (vm_compute; reflexivity).
  exact (conj H (shortest_switch_path_simple _ _ _ _ H)).
Defined.



(** ** Port Resolver: self-consistency *)

Lemma crossed_graph_symmetric : symmetric crossed_graph.
Proof.
  intros a b p q. unfold crossed_graph, neighbors.
  rewrite !lookup_insert, !lookup_empty.
  repeat case_decide; subst; simpl;
    rewrite ?elem_of_cons, ?elem_of_nil; naive_solver.
Qed.

Lemma first_entry_toward_exists adj target e :
  e ∈ adj → entry_nbr e = target →
  ∃ e', first_entry_toward adj target = Some e'.
Proof.
  intros He Hn. induction adj as [|x adj IH]; [by inversion He|]. simpl.
  destruct (String.eqb_spec (entry_nbr x) target) as [|Hne]; [by eexists|].
  apply IH. apply elem_of_cons in He as [->|He]; done.
Qed.

(** On a symmetric graph, the port a switch reads toward a neighbour is
    recorded, on the neighbour's side, in an entry the neighbour holds. *)
Lemma first_port_toward_recorded g a b :
  symmetric g → adjacent g a b →
  ∃ p, (a, p, first_port_toward (neighbors g a) b) ∈ neighbors g b.
Proof.
  intros Hsym (e & He & Hn).
  destruct (first_entry_toward_exists _ _ _ He Hn) as [[[n p] q] Hfirst].
  rewrite first_port_toward_entry, Hfirst.
  apply first_entry_toward_nbr in Hfirst as [Hnbr Hin].
  unfold entry_nbr in Hnbr; simpl in Hnbr. subst n.
  exists q. by apply Hsym.
Qed.

Lemma line_graph_symmetric : symmetric line_graph.
Proof. apply fold_add_link_symmetric, symmetric_empty. Qed.

(** C4, as stated, fails.  Over the line of three switches, built by
    [build_switch_graph], the egress port of the middle switch is 3 and the
    ingress port of the last one is 2: the two ends of a link bear different
    numbers.  And over [crossed_graph], which is symmetric, the ingress port
    of B is 4 while the entry from which A's egress port is read records
    port 2 on B's side. *)
Lemma symmetric_graph_ports_inconsistent :
  (symmetric line_graph ∧
   shortest_switch_path line_graph "00:00:00:00:00:00:00:01"
     "00:00:00:00:00:00:00:03" = Some line_path ∧
   ¬ hop_same_numbers (path_ports_for_switches line_graph line_path)
       "00:00:00:00:00:00:00:01" "00:00:00:00:00:00:00:02"
       "00:00:00:00:00:00:00:03") ∧
  (symmetric crossed_graph ∧
   shortest_switch_path crossed_graph "A" "C" = Some ["A"; "B"; "C"] ∧
   ¬ hop_consistent crossed_graph
       (path_ports_for_switches crossed_graph ["A"; "B"; "C"]) "A" "B" "C" ∧
   ¬ hop_same_numbers
       (path_ports_for_switches crossed_graph ["A"; "B"; "C"]) "A" "B" "C").
Proof.
  split.
  - split; [apply line_graph_symmetric|]. split; [by vm_compute|].
    intros [_ H]; vm_compute in H; discriminate.
  - split; [apply crossed_graph_symmetric|]. split; [by vm_compute|].
    split; intros [H _]; vm_compute in H; discriminate.
Qed.

Lemma built_graph_hop_consistent links switch_path i prev sw nxt :
  NoDup switch_path →
  switch_path !! i = Some prev →
  switch_path !! S i = Some sw →
  switch_path !! S (S i) = Some nxt →
  hop_consistent (build_switch_graph links)
    (path_ports_for_switches (build_switch_graph links) switch_path)
    prev sw nxt.
Proof.
  intros Hnd Hp Hs Hn.
  pose proof (build_switch_graph_paired links) as Hpair.
  assert (prev ≠ sw) as Hne1.
  { intros ->. pose proof (NoDup_lookup _ _ _ _ Hnd Hp Hs). lia. }
  assert (nxt ≠ sw) as Hne2.
  { intros ->. pose proof (NoDup_lookup _ _ _ _ Hnd Hs Hn). lia. }
  split.
  - rewrite (ingress_at _ _ i prev sw) by done.
    by apply first_port_toward_paired.
  - rewrite (egress_at _ _ (S i) sw nxt) by done.
    by apply first_port_toward_paired.
Qed.

(** C4, amended: over a symmetric graph, on a path the search returns, the
    ports of every interior hop agree with what its two neighbours record:
    the predecessor holds an entry toward the hop whose far-side port is the
    hop's ingress port, and the successor holds an entry toward the hop whose
    far-side port is the hop's egress port.  When the graph was produced by
    [build_switch_graph], these are the first such entries, those from which
    the predecessor's egress port and the successor's ingress port are read. *)
Theorem resolved_ports_self_consistent (g : graph) (src_sw dst_sw : string)
    (switch_path : list string) (i : nat) (prev sw nxt : string) :
  symmetric g →
  shortest_switch_path g src_sw dst_sw = Some switch_path →
  switch_path !! i = Some prev →
  switch_path !! S i = Some sw →
  switch_path !! S (S i) = Some nxt →
  let hp := path_ports_for_switches g switch_path in
  (∃ p, (sw, p, ingress hp sw) ∈ neighbors g prev) ∧
  (∃ p, (sw, p, egress hp sw) ∈ neighbors g nxt) ∧
  ((∃ links, g = build_switch_graph links) → hop_consistent g hp prev sw nxt).
Proof.
  intros Hsym Hpath Hp Hs Hn hp. subst hp.
  pose proof (shortest_switch_path_post g src_sw dst_sw) as Hpost.
  rewrite Hpath in Hpost. destruct Hpost as (((_ & Hstep) & _) & Hnd & _).
  assert (adjacent g sw prev) as Hback.
  { destruct (Hstep i prev sw Hp Hs) as ([[n p] q] & He & Hnbr).
    unfold entry_nbr in Hnbr; simpl in Hnbr. subst n.
    exists (prev, q, p). split; [by apply Hsym|done]. }
  split; [|split].
  - rewrite (ingress_at g _ i prev sw) by done.
    by apply first_port_toward_recorded.
  - rewrite (egress_at g _ (S i) sw nxt) by done.
    apply first_port_toward_recorded; [done|]. by apply (Hstep (S i)).
  - intros [links ->]. by apply (built_graph_hop_consistent links _ i).
Qed.

Lemma line_path_computed :
  shortest_switch_path line_graph "00:00:00:00:00:00:00:01"
    "00:00:00:00:00:00:00:03" = Some line_path.
Proof. vm_compute. reflexivity. Defined.

Lemma resolved_ports_self_consistent_witness :
  symmetric line_graph ∧
  shortest_switch_path line_graph "00:00:00:00:00:00:00:01"
    "00:00:00:00:00:00:00:03" = Some line_path ∧
  line_path !! 0 = Some "00:00:00:00:00:00:00:01" ∧
  line_path !! 1 = Some "00:00:00:00:00:00:00:02" ∧
  line_path !! 2 = Some "00:00:00:00:00:00:00:03" ∧
  (let hp := path_ports_for_switches line_graph line_path in
   (∃ p, ("00:00:00:00:00:00:00:02", p, ingress hp "00:00:00:00:00:00:00:02")
         ∈ neighbors line_graph "00:00:00:00:00:00:00:01") ∧
   (∃ p, ("00:00:00:00:00:00:00:02", p, egress hp "00:00:00:00:00:00:00:02")
         ∈ neighbors line_graph "00:00:00:00:00:00:00:03") ∧
   ((∃ links, line_graph = build_switch_graph links) →
    hop_consistent line_graph hp "00:00:00:00:00:00:00:01"
      "00:00:00:00:00:00:00:02" "00:00:00:00:00:00:00:03")).
Proof.
  exact (conj line_graph_symmetric (conj line_path_computed
    (conj eq_refl (conj eq_refl (conj eq_refl
      (resolved_ports_self_consistent line_graph _ _ line_path 0 _ _ _
         line_graph_symmetric line_path_computed eq_refl eq_refl eq_refl)))))).
Defined.

(** ** Device Locator: the fallback heuristic *)










(** The hosts of the sample topology. *)
Example heuristic_h1_h3 :
  heuristic "h1" = Some ("00:00:00:00:00:00:00:01", 1%Z) ∧
  heuristic "h3" = Some ("00:00:00:00:00:00:00:03", 1%Z) ∧
  heuristic "h12" = Some ("00:00:00:00:00:00:00:12", 1%Z).
Proof. by vm_compute. Qed.

(** ** main: installation comes last *)

(** C3: a run issues an installation request only if the device stage
    returned, both attachment points were resolved, the topology call
    returned a non-empty list of links and the search found a path, and then
    only after the two queries; when an attachment point is unresolved, the
    list of links is empty or no path is found, the run ends in [SystemExit]
    and has issued no installation request. *)
Theorem installation_only_after_checks (args : Args)
    (directory : result (option attachment * option attachment))
    (topology : result (list Link)) :
  let run := main args directory topology in
  (installs run.1 ≠ [] →
   ∃ picked src_switch src_port dst_switch dst_port links path rest,
     directory = Ok picked ∧
     resolve_attachments args picked.1 picked.2
       = (Some (src_switch, src_port), Some (dst_switch, dst_port)) ∧
     topology = Ok links ∧ links ≠ [] ∧
     shortest_switch_path (build_switch_graph links) src_switch dst_switch
       = Some path ∧
     run.1 = Get (devices_url args) :: Get (links_url args) :: rest) ∧
  (∀ picked, directory = Ok picked →
     let resolved := resolve_attachments args picked.1 picked.2 in
     (resolved.1 = None ∨ resolved.2 = None →
      run.2 = Raise (SystemExit AttachmentUnresolved) ∧ installs run.1 = []) ∧
     (∀ sa da, resolved = (Some sa, Some da) → topology = Ok [] →
      run.2 = Raise (SystemExit EmptyTopology) ∧ installs run.1 = []) ∧
     (∀ sa da links, resolved = (Some sa, Some da) →
      topology = Ok links → links ≠ [] →
      shortest_switch_path (build_switch_graph links) sa.1 da.1 = None →
      run.2 = Raise (SystemExit PathNotFound) ∧ installs run.1 = [])).
Proof.
  intros run. subst run. unfold main, devices_url, links_url.
  destruct directory as [picked|e]; simpl.
  2:{ split; [by intros []|]. by intros ? [=]. }
  destruct (resolve_attachments args picked.1 picked.2)
    as [[[ss sp]|] [[ds dp]|]] eqn:Hres; simpl;
    try (split; [by intros []|]; intros ? [= <-]; rewrite Hres; simpl;
         split; [done|]; split; [by intros ? ? [=]|by intros ? ? ? [=]]).
  destruct topology as [links|e]; simpl.
  2:{ split; [by intros []|]. intros ? [= <-]. rewrite Hres; simpl.
      split; [by intros [|]|].
      split; [by intros ? ? _ [=]|by intros ? ? ? _ [=]]. }
  destruct links as [|l links]; simpl.
  { split; [by intros []|]. intros ? [= <-]. rewrite Hres; simpl.
    split; [by intros [|]|]. split; [done|]. by intros ? ? ? _ [= <-]. }
  destruct (shortest_switch_path (build_switch_graph (l :: links)) ss ds)
    as [path|] eqn:Hpath.
  - match goal with
    | |- context [bind (ret path) ?f] => destruct (bind (ret path) f) as [t' r]
    end. simpl. split.
    + intros _. by exists picked, ss, sp, ds, dp, (l :: links), path, t'.
    + intros ? [= <-]. rewrite Hres; simpl.
      split; [by intros [|]|]. split; [by intros|].
      intros sa da links' [= <- <-] [= <-] _ Hnone. simpl in Hnone. congruence.
  - destruct (String.eqb_spec ss ds) as [->|Hne].
    { unfold shortest_switch_path in Hpath. by rewrite String.eqb_refl in Hpath. }
    simpl. split; [by intros []|]. intros ? [= <-]. rewrite Hres; simpl.
    split; [by intros [|]|]. split; [by intros ? ? _ [=]|done].
Qed.

(** ** main: both hosts on one switch *)

Lemma shortest_switch_path_same g sw : shortest_switch_path g sw sw = Some [sw].
Proof. unfold shortest_switch_path. by rewrite String.eqb_refl. Qed.

Lemma path_ports_single g sw :
  path_ports_for_switches g [sw] = {[sw := (None, None)]}.
Proof. done. Qed.

Lemma override_endpoints_single sw io first_in last_out :
  override_endpoints {[sw := io]} [sw] first_in last_out
  = Ok {[sw := (Some first_in, Some last_out)]}.
Proof.
  unfold override_endpoints, hop_getitem; simpl.
  rewrite lookup_singleton_eq; simpl. rewrite lookup_insert_eq; simpl.
  f_equal. by rewrite !insert_singleton_eq.
Qed.

Local Arguments install_flows : simpl never.

Lemma install_flows_single fl name_prefix sw in_p out_p last_resort :
  install_flows fl name_prefix {[sw := (in_p, Some out_p)]} last_resort
    (enumerate [sw])
  = ([push_flow fl sw (name_prefix +:+ "1") in_p (Some out_p) default_priority],
     Ok tt).
Proof.
  unfold enumerate, install_flows, hop_getitem; simpl.
  by rewrite lookup_singleton_eq.
Qed.

(** C6, as stated, fails: with both hosts on one switch and a topology query
    that yields no link, the run ends in [SystemExit] before any path is
    computed, and issues no flow rule. *)
Lemma same_switch_empty_topology_no_rule :
  let run :=
    main (mkArgs "h1" "h2" "http://127.0.0.1:8080" false)
         (Ok (Some ("00:00:00:00:00:00:00:01", 1%Z),
              Some ("00:00:00:00:00:00:00:01", 2%Z))) (Ok []) in
  run.2 = Raise (SystemExit EmptyTopology) ∧ installs run.1 = [].
Proof. by vm_compute. Qed.

(** C6, amended: when both hosts resolve to the same switch [sw] with host
    ports [p_src] and [p_dst], the path computed over any graph is [[sw]] and
    the hop ports of [sw] after the override are [(p_src, p_dst)]; provided
    the topology call returned at least one link, the run ends normally and
    its forward installation is exactly one flow rule, on [sw], matching
    ingress port [p_src] and outputting to [p_dst] (followed, when
    [--bidirectional] is given, by the one reverse rule). *)
Theorem same_switch_single_rule (args : Args)
    (picked_src picked_dst : option attachment)
    (sw : string) (p_src p_dst : Z) (links : list Link) :
  resolve_attachments args picked_src picked_dst
    = (Some (sw, p_src), Some (sw, p_dst)) →
  links ≠ [] →
  let fl := rstrip_char "/" (arg_floodlight args) in
  let fwd :=
    push_flow fl sw (("fwd_" +:+ arg_src args +:+ "_to_" +:+ arg_dst args +:+ "_") +:+ "1")
              (Some p_src) (Some p_dst) default_priority in
  let rev :=
    push_flow fl sw (("rev_" +:+ arg_dst args +:+ "_to_" +:+ arg_src args +:+ "_") +:+ "1")
              (Some p_dst) (Some p_src) default_priority in
  let run := main args (Ok (picked_src, picked_dst)) (Ok links) in
  (∀ g, shortest_switch_path g sw sw = Some [sw]) ∧
  (∀ g, override_endpoints (path_ports_for_switches g [sw]) [sw] p_src p_dst
        = Ok {[sw := (Some p_src, Some p_dst)]}) ∧
  run.2 = Ok tt ∧
  installs run.1 = fwd :: (if arg_bidirectional args then [rev] else []) ∧
  ∃ url body, fwd = Post url body ∧
    flow_field body "switch" = Some sw ∧
    flow_field body "in_port" = Some (str_of_int p_src) ∧
    flow_field body "actions" = Some ("output=" +:+ str_of_int p_dst).
Proof.
  intros Hres Hlinks fl fwd rev run.
  split; [intros g; apply shortest_switch_path_same|].
  split; [intros g; rewrite path_ports_single; apply override_endpoints_single|].
  assert (run = ([Get (devices_url args); Get (links_url args); fwd]
                 ++ (if arg_bidirectional args then [rev] else []), Ok tt)) as ->.
  { subst run. unfold main, query_devices. simpl. rewrite Hres.
    destruct links as [|l links]; [done|]. simpl.
    rewrite shortest_switch_path_same; simpl.
    rewrite path_ports_single, override_endpoints_single; simpl.
    rewrite install_flows_single.
    destruct (arg_bidirectional args); simpl; [|done].
    change (reverse [sw]) with [sw].
    rewrite path_ports_single, override_endpoints_single; simpl.
    rewrite install_flows_single. simpl.
    done. }
  split; [done|]. split; [by destruct (arg_bidirectional args)|].
  eexists _, _. split; [reflexivity|]. done.
Qed.

Lemma same_switch_single_rule_witness :
  let args := mkArgs "h1" "h2" "http://127.0.0.1:8080" false in
  let sw := "00:00:00:00:00:00:00:01" in
  resolve_attachments args (Some (sw, 1%Z)) (Some (sw, 2%Z))
    = (Some (sw, 1%Z), Some (sw, 2%Z)) ∧
  line_links ≠ [] ∧
  (let fl := rstrip_char "/" (arg_floodlight args) in
   let fwd :=
     push_flow fl sw (("fwd_" +:+ arg_src args +:+ "_to_" +:+ arg_dst args +:+ "_") +:+ "1")
               (Some 1%Z) (Some 2%Z) default_priority in
   let rev :=
     push_flow fl sw (("rev_" +:+ arg_dst args +:+ "_to_" +:+ arg_src args +:+ "_") +:+ "1")
               (Some 2%Z) (Some 1%Z) default_priority in
   let run := main args (Ok (Some (sw, 1%Z), Some (sw, 2%Z))) (Ok line_links) in
   (∀ g, shortest_switch_path g sw sw = Some [sw]) ∧
   (∀ g, override_endpoints (path_ports_for_switches g [sw]) [sw] 1%Z 2%Z
         = Ok {[sw := (Some 1%Z, Some 2%Z)]}) ∧
   run.2 = Ok tt ∧
   installs run.1 = fwd :: (if arg_bidirectional args then [rev] else []) ∧
   ∃ url body, fwd = Post url body ∧
     flow_field body "switch" = Some sw ∧
     flow_field body "in_port" = Some (str_of_int 1%Z) ∧
     flow_field body "actions" = Some ("output=" +:+ str_of_int 2%Z)).
Proof.
  intros args sw.
  assert (line_links ≠ []) as Hl by discriminate.
  exact (conj eq_refl (conj Hl
    (same_switch_single_rule args (Some (sw, 1%Z)) (Some (sw, 2%Z)) sw 1%Z 2%Z
       line_links eq_refl Hl))).
Defined.

(** ** Topology Normalizer *)

Lemma get_or_dict d keys : ∃ v, get_or (JDict d) keys = Ok v.
Proof.
  induction keys as [|k keys IH]; simpl; [by eexists|].
  destruct keys as [|k' keys]; [by eexists|].
  destruct (truthy (dict_get d k)); [by eexists|done].
Qed.

Lemma selects_nonempty d keys v : selects d keys v → keys ≠ [].
Proof. by inversion 1. Qed.

Lemma selects_truthy d keys v : selects d keys v → truthy v = true.
Proof. induction 1; done. Qed.

Lemma selects_get_or d keys v :
  selects d keys v → get_or (JDict d) keys = Ok v.
Proof.
  induction 1 as [k keys v Hv Ht|k keys v Hf Hsel IH]; simpl.
  - rewrite Hv. destruct keys; [done|]. by rewrite Ht.
  - apply selects_nonempty in Hsel as Hne. destruct keys as [|k' keys]; [done|].
    by rewrite Hf.
Qed.

Lemma none_truthy_get_or d keys :
  none_truthy d keys →
  ∃ v, get_or (JDict d) keys = Ok v ∧ truthy v = false.
Proof.
  induction keys as [|k keys IH]; intros Hnone; simpl; [by eexists|].
  assert (truthy (dict_get d k) = false) as Hk
    by apply Hnone, list_elem_of_here.
  destruct keys as [|k' keys]; [by eexists|]. rewrite Hk.
  apply IH. intros k0 Hk0. by apply Hnone, list_elem_of_further.
Qed.

Lemma unwrap_ok v : ∃ w, unwrap v = Ok w.
Proof.
  unfold unwrap. destruct v; simpl; try by eexists.
  destruct (truthy (dict_get d "switchDPID")); [by eexists|].
  destruct (truthy (dict_get d "dpid")); by eexists.
Qed.

Lemma unwrap_falsy v : truthy v = false → ∃ w, unwrap v = Ok w ∧ truthy w = false.
Proof.
  intros Hv. unfold unwrap. destruct v; simpl; try by eexists.
  destruct d; [|done]. by eexists.
Qed.

Lemma reports_unwrap d keys s :
  reports d keys s →
  ∃ v, get_or (JDict d) keys = Ok v ∧ unwrap v = Ok (JStr s) ∧
       truthy (JStr s) = true.
Proof.
  intros [Hsel|(inner & Hsel & Hin)].
  - exists (JStr s). split; [by apply selects_get_or|]. split; [done|].
    by eapply selects_truthy.
  - exists (JDict inner). split; [by apply selects_get_or|]. split.
    + unfold unwrap; simpl. by apply selects_get_or in Hin.
    + by eapply selects_truthy.
Qed.

Lemma unresolved_unwrap d keys :
  unresolved d keys →
  ∃ v w, get_or (JDict d) keys = Ok v ∧ unwrap v = Ok w ∧ truthy w = false.
Proof.
  intros [Hnone|(inner & Hsel & Hnone)].
  - destruct (none_truthy_get_or d keys Hnone) as (v & Hv & Hf).
    destruct (unwrap_falsy v Hf) as (w & Hw & Hwf). by exists v, w.
  - destruct (none_truthy_get_or inner nested_keys Hnone) as (w & Hw & Hf).
    exists (JDict inner), w. split; [by apply selects_get_or|]. done.
Qed.

Section NormalizerFacts.
Variable str_other : json → string.

Local Arguments py_int : simpl never.

Lemma get_port_dict d keys : ∃ p, get_port str_other (JDict d) keys = Ok p.
Proof.
  induction keys as [|k keys IH]; simpl; [by eexists|].
  repeat case_match; eauto.
Qed.

Lemma get_port_unknown d keys :
  (∀ k, k ∈ keys → port_unknown str_other (dict_get d k)) →
  get_port str_other (JDict d) keys = Ok None.
Proof.
  induction keys as [|k keys IH]; intros Hall; simpl; [done|].
  assert (get_port str_other (JDict d) keys = Ok None) as Hrest.
  { apply IH. intros k0 Hk0. by apply Hall, list_elem_of_further. }
  destruct (Hall k (list_elem_of_here _ _)) as [->|[H1 H2]]; [done|].
  destruct (py_int (dict_get d k)) as [n|] eqn:E1; [by destruct (H1 n)|].
  destruct (py_int (JStr (py_str str_other (dict_get d k)))) as [n|] eqn:E2;
    [by destruct (H2 n)|].
  by destruct (dict_get d k).
Qed.

(** [normalize_entry] on a dict, in terms of the two probes. *)
Lemma normalize_entry_dict d :
  ∃ v1 w1 v2 w2 sp dp,
    get_or (JDict d) src_keys = Ok v1 ∧ unwrap v1 = Ok w1 ∧
    get_or (JDict d) dst_keys = Ok v2 ∧ unwrap v2 = Ok w2 ∧
    get_port str_other (JDict d) src_port_keys = Ok sp ∧
    get_port str_other (JDict d) dst_port_keys = Ok dp ∧
    normalize_entry str_other (JDict d) =
      if negb (truthy w1) || negb (truthy w2) then Ok None
      else Ok (Some (mkLink (py_str str_other w1) sp (py_str str_other w2) dp)).
Proof.
  destruct (get_or_dict d src_keys) as [v1 Hv1].
  destruct (get_or_dict d dst_keys) as [v2 Hv2].
  destruct (unwrap_ok v1) as [w1 Hw1]. destruct (unwrap_ok v2) as [w2 Hw2].
  destruct (get_port_dict d src_port_keys) as [sp Hsp].
  destruct (get_port_dict d dst_port_keys) as [dp Hdp].
  exists v1, w1, v2, w2, sp, dp. repeat (split; [done|]).
  unfold normalize_entry. change (negb (is_dict (JDict d))) with false.
  cbv iota. rewrite Hv1, Hv2, Hsp, Hdp. simpl. by rewrite Hw1, Hw2.
Qed.

Lemma normalize_entry_ok e : ∃ o, normalize_entry str_other e = Ok o.
Proof.
  destruct e; try by eexists.
  destruct (normalize_entry_dict d) as (v1 & w1 & v2 & w2 & sp & dp & H).
  destruct H as (_ & _ & _ & _ & _ & _ & ->).
  destruct (negb (truthy w1) || negb (truthy w2)); by eexists.
Qed.

Lemma normalize_loop_spec entries :
  ∃ outcomes,
    Forall2 (λ e o, normalize_entry str_other e = Ok o) entries outcomes ∧
    ∀ normalized,
      normalize_loop str_other entries normalized
      = Ok (normalized ++ omap id outcomes).
Proof.
  induction entries as [|e entries (outcomes & Hall & Hloop)].
  - exists []. split; [constructor|]. intros normalized. simpl.
    by rewrite app_nil_r.
  - destruct (normalize_entry_ok e) as [o Ho]. exists (o :: outcomes).
    split; [by constructor|]. intros normalized. simpl. rewrite Ho; simpl.
    destruct o as [l|]; rewrite Hloop; simpl; [|done].
    by rewrite <- app_assoc.
Qed.
Lemma normalize_entry_reports d s t :
  reports d src_keys s → reports d dst_keys t →
  ∃ sp dp,
    get_port str_other (JDict d) src_port_keys = Ok sp ∧
    get_port str_other (JDict d) dst_port_keys = Ok dp ∧
    normalize_entry str_other (JDict d) = Ok (Some (mkLink s sp t dp)).
Proof.
  intros Hs Ht.
  destruct (reports_unwrap d _ s Hs) as (v1 & Hv1 & Hw1 & Ht1).
  destruct (reports_unwrap d _ t Ht) as (v2 & Hv2 & Hw2 & Ht2).
  destruct (normalize_entry_dict d)
    as (v1' & w1 & v2' & w2 & sp & dp & H1 & H2 & H3 & H4 & H5 & H6 & ->).
  assert (v1' = v1) as -> by congruence. assert (v2' = v2) as -> by congruence.
  assert (w1 = JStr s) as -> by congruence.
  assert (w2 = JStr t) as -> by congruence.
  exists sp, dp. rewrite Ht1, Ht2. done.
Qed.

Lemma normalize_entry_unresolved d :
  unresolved d src_keys ∨ unresolved d dst_keys →
  normalize_entry str_other (JDict d) = Ok None.
Proof.
  intros Hun.
  destruct (normalize_entry_dict d)
    as (v1 & w1 & v2 & w2 & sp & dp & H1 & H2 & H3 & H4 & _ & _ & ->).
  destruct Hun as [Hun|Hun];
    destruct (unresolved_unwrap d _ Hun) as (v & w & Hv & Hw & Hf).
  - assert (v1 = v) as -> by congruence. assert (w1 = w) as -> by congruence.
    by rewrite Hf.
  - assert (v2 = v) as -> by congruence. assert (w2 = w) as -> by congruence.
    rewrite Hf. by destruct (truthy w1).
Qed.

(** C7: link normalization returns for every decoded payload, never
    raising.  A payload that is neither a list nor an object holding a
    list under [links] gives the empty list.  For a list of entries, bare
    or wrapped, the result is made, in order, of the links of the entries
    that yield one: an entry that is no dict yields none, nor does one
    under whose aliases no source or no destination switch identifier can
    be resolved, and a record that reports the identifier strings [s] and
    [t] yields a link whose [src] is [s] and whose [dst] is [t], whatever
    the other entries of the batch are. *)
Theorem link_normalization_total (raw : json) :
  (∃ links, get_topology_links str_other raw = Ok links) ∧
  ((∀ entries, raw ≠ JList entries) →
   (∀ d entries, raw = JDict d →
      dict_lookup d "links" ≠ Some (JList entries)) →
   get_topology_links str_other raw = Ok []) ∧
  (∀ entries,
     raw = JList entries ∨
     (∃ d, raw = JDict d ∧ dict_lookup d "links" = Some (JList entries)) →
     ∃ outcomes,
       Forall2 (λ e o, normalize_entry str_other e = Ok o) entries outcomes ∧
       get_topology_links str_other raw = Ok (omap id outcomes)) ∧
  (∀ e, is_dict e = false → normalize_entry str_other e = Ok None) ∧
  (∀ d, unresolved d src_keys ∨ unresolved d dst_keys →
        normalize_entry str_other (JDict d) = Ok None) ∧
  (∀ d s t, reports d src_keys s → reports d dst_keys t →
     ∃ sp dp, normalize_entry str_other (JDict d)
              = Ok (Some (mkLink s sp t dp))).
Proof.
  assert (∀ entries,
    raw = JList entries ∨
    (∃ d, raw = JDict d ∧ dict_lookup d "links" = Some (JList entries)) →
    ∃ outcomes,
      Forall2 (λ e o, normalize_entry str_other e = Ok o) entries outcomes ∧
      get_topology_links str_other raw = Ok (omap id outcomes)) as Hlist.
  { intros entries Hraw.
    destruct (normalize_loop_spec entries) as (outcomes & Hall & Hloop).
    exists outcomes. split; [done|]. unfold get_topology_links.
    destruct Hraw as [->|(d & -> & ->)]; apply (Hloop []). }
  assert ((∀ entries, raw ≠ JList entries) →
    (∀ d entries, raw = JDict d →
       dict_lookup d "links" ≠ Some (JList entries)) →
    get_topology_links str_other raw = Ok []) as Hother.
  { intros Hnl Hnw. unfold get_topology_links.
    destruct raw as [| | | | |entries|d]; try done.
    - by destruct (Hnl entries).
    - destruct (dict_lookup d "links") as [v|] eqn:Hv; [|done].
      destruct v as [| | | | |entries|]; try done.
      by destruct (Hnw d entries). }
  split; [|split; [done|]; split; [done|]; split; [|split]].
  - destruct raw as [| | | | |entries|d] eqn:Hraw; try by eexists.
    + destruct (Hlist entries) as (o & _ & ->); [by left|]. by eexists.
    + destruct (dict_lookup d "links") as [v|] eqn:Hv.
      * destruct v as [| | | | |entries|] eqn:Hvv;
          try (eexists; unfold get_topology_links; by rewrite Hv).
        destruct (Hlist entries) as (o & _ & ->); [right; by exists d|].
        by eexists.
      * eexists. unfold get_topology_links. by rewrite Hv.
  - intros e He. unfold normalize_entry. by rewrite He.
  - apply normalize_entry_unresolved.
  - intros d s t Hs Ht.
    destruct (normalize_entry_reports d s t Hs Ht) as (sp & dp & _ & _ & H).
    by exists sp, dp.
Qed.
End NormalizerFacts.

(** ** Unknown ports *)

Lemma fold_add_link_entries links g a e :
  e ∈ neighbors (fold_left add_link links g) a ↔
  e ∈ neighbors g a ∨ ∃ l, l ∈ links ∧ entry_of_link l a e.
Proof.
  revert g. induction links as [|l links IH]; intros g; simpl.
  - split; [by left|]. intros [?|(l & Hl & _)]; [done|by inversion Hl].
  - rewrite IH. unfold add_link at 1.
    destruct (str_falsy (src l)) eqn:Hs; simpl.
    { split; [intros [?|(l' & ? & ?)]|intros [?|(l' & Hl' & He)]].
      - by left.
      - right. exists l'. split; [by apply list_elem_of_further|done].
      - by left.
      - right. apply elem_of_cons in Hl' as [->|Hl']; [|by exists l'].
        destruct He as (Hs' & _). congruence. }
    destruct (str_falsy (dst l)) eqn:Hd; simpl.
    { split; [intros [?|(l' & ? & ?)]|intros [?|(l' & Hl' & He)]].
      - by left.
      - right. exists l'. split; [by apply list_elem_of_further|done].
      - by left.
      - right. apply elem_of_cons in Hl' as [->|Hl']; [|by exists l'].
        destruct He as (_ & Hd' & _). congruence. }
    rewrite !elem_of_neighbors_graph_append. split.
    + intros [[[?|[<- ->]]|[<- ->]]|(l' & ? & ?)].
      * by left.
      * right. exists l. split; [apply list_elem_of_here|]. unfold entry_of_link. auto.
      * right. exists l. split; [apply list_elem_of_here|]. unfold entry_of_link. auto.
      * right. exists l'. split; [by apply list_elem_of_further|done].
    + intros [?|(l' & Hl' & He)]; [by left; left; left|].
      apply elem_of_cons in Hl' as [->|Hl']; [|right; by exists l'].
      destruct He as (_ & _ & [[-> ->]|[-> ->]]); left; [left; right|right]; done.
Qed.

Lemma build_switch_graph_entries links a e :
  e ∈ neighbors (build_switch_graph links) a ↔
  ∃ l, l ∈ links ∧ entry_of_link l a e.
Proof.
  unfold build_switch_graph. rewrite fold_add_link_entries, neighbors_empty.
  split; [intros [H|?]; [by inversion H|done]|by right].
Qed.

Lemma ingress_entry g switch_path i prev sw e :
  NoDup switch_path →
  switch_path !! i = Some prev → switch_path !! S i = Some sw →
  first_entry_toward (neighbors g sw) prev = Some e →
  ingress (path_ports_for_switches g switch_path) sw = entry_local e.
Proof.
  intros Hnd Hp Hs He. rewrite (ingress_at g _ i prev sw) by done.
  by rewrite first_port_toward_entry, He.
Qed.

Lemma egress_entry g switch_path i sw nxt e :
  NoDup switch_path →
  switch_path !! i = Some sw → switch_path !! S i = Some nxt →
  first_entry_toward (neighbors g sw) nxt = Some e →
  egress (path_ports_for_switches g switch_path) sw = entry_local e.
Proof.
  intros Hnd Hs Hn He. rewrite (egress_at g _ i sw nxt) by done.
  by rewrite first_port_toward_entry, He.
Qed.

Section UnknownPorts.
Variable str_other : json → string.

(** C8: an unknown port stays unknown.  [get_port] gives [None] when
    every alias is absent, null or holds a value that no conversion turns
    into an integer, and the link normalized from the record then has
    [None] for that port; the graph holds, for each link with both switch
    identifiers, the two entries with the ports of the link as they are,
    and no other entry; the port resolver returns the local port of the
    first entry toward the neighbour as it is, [None] included; and
    [push_flow] with [in_port = None] emits a rule without an [in_port]
    field, while with a port it emits that port. *)
Theorem unknown_port_propagates :
  (∀ d keys, (∀ k, k ∈ keys → port_unknown str_other (dict_get d k)) →
     get_port str_other (JDict d) keys = Ok None) ∧
  (∀ d s t, reports d src_keys s → reports d dst_keys t →
     (∀ k, k ∈ src_port_keys → port_unknown str_other (dict_get d k)) →
     ∃ dp, normalize_entry str_other (JDict d)
           = Ok (Some (mkLink s None t dp))) ∧
  (∀ d s t, reports d src_keys s → reports d dst_keys t →
     (∀ k, k ∈ dst_port_keys → port_unknown str_other (dict_get d k)) →
     ∃ sp, normalize_entry str_other (JDict d)
           = Ok (Some (mkLink s sp t None))) ∧
  (∀ links a e,
     e ∈ neighbors (build_switch_graph links) a ↔
     ∃ l, l ∈ links ∧ entry_of_link l a e) ∧
  (∀ g switch_path i a b e,
     NoDup switch_path →
     switch_path !! i = Some a → switch_path !! S i = Some b →
     (first_entry_toward (neighbors g b) a = Some e →
      ingress (path_ports_for_switches g switch_path) b = entry_local e) ∧
     (first_entry_toward (neighbors g a) b = Some e →
      egress (path_ports_for_switches g switch_path) a = entry_local e)) ∧
  (∀ fl sw name out_port priority,
     ∃ url body, push_flow fl sw name None out_port priority = Post url body ∧
                 flow_field body "in_port" = None) ∧
  (∀ fl sw name p out_port priority,
     ∃ url body, push_flow fl sw name (Some p) out_port priority = Post url body ∧
                 flow_field body "in_port" = Some (str_of_int p)).
Proof.
  split; [apply get_port_unknown|]. split; [|split].
  - intros d s t Hs Ht Hun.
    destruct (normalize_entry_reports str_other d s t Hs Ht)
      as (sp & dp & Hsp & _ & ->).
    rewrite (get_port_unknown str_other d _ Hun) in Hsp.
    injection Hsp as <-. by exists dp.
  - intros d s t Hs Ht Hun.
    destruct (normalize_entry_reports str_other d s t Hs Ht)
      as (sp & dp & _ & Hdp & ->).
    rewrite (get_port_unknown str_other d _ Hun) in Hdp.
    injection Hdp as <-. by exists sp.
  - split; [apply build_switch_graph_entries|]. split; [|split].
    + intros g switch_path i a b e Hnd Ha Hb. split; intros He.
      * by apply (ingress_entry g switch_path i a b e).
      * by apply (egress_entry g switch_path i a b e).
    + intros. eexists _, _. split; reflexivity.
    + intros. eexists _, _. split; reflexivity.
Qed.
End UnknownPorts.

(** ** Scenarios *)

(** Three switches in a line, h1 on the first and h3 on the last, both found
    by the heuristic: one rule per switch, with the host port at each end. *)
Example line_scenario :
  let run := main (mkArgs "h1" "h3" "http://127.0.0.1:8080" false)
                  (Ok (None, None)) (Ok line_links) in
  run.2 = Ok tt ∧
  installs run.1 =
    [ push_flow "http://127.0.0.1:8080" "00:00:00:00:00:00:00:01"
        "fwd_h1_to_h3_1" (Some 1%Z) (Some 2%Z) default_priority;
      push_flow "http://127.0.0.1:8080" "00:00:00:00:00:00:00:02"
        "fwd_h1_to_h3_2" (Some 2%Z) (Some 3%Z) default_priority;
      push_flow "http://127.0.0.1:8080" "00:00:00:00:00:00:00:03"
        "fwd_h1_to_h3_3" (Some 2%Z) (Some 1%Z) default_priority ].
Proof. by vm_compute. Qed.

(** A switch that no link mentions is unreachable, and the run stops there. *)
Example unreachable_scenario :
  shortest_switch_path line_graph "00:00:00:00:00:00:00:01"
    "00:00:00:00:00:00:00:09" = None ∧
  main (mkArgs "h1" "h9" "http://127.0.0.1:8080" true)
       (Ok (None, None)) (Ok line_links)
  = ([Get "http://127.0.0.1:8080/wm/device/";
      Get "http://127.0.0.1:8080/wm/topology/links/json"],
     Raise (SystemExit PathNotFound)).
Proof. by vm_compute. Qed.

(** A batch with a well-formed record among malformed ones. *)
Example mixed_batch :
  get_topology_links (λ _, "")
    (JList [ JInt 7;
             JDict [("src-switch", JStr "00:00:00:00:00:00:00:01");
                    ("src-port", JInt 2);
                    ("dst-switch", JStr "00:00:00:00:00:00:00:02");
                    ("dst-port", JStr "two")];
             JDict [("src-switch", JStr "00:00:00:00:00:00:00:02")];
             JNull ])
  = Ok [ mkLink "00:00:00:00:00:00:00:01" (Some 2%Z)
                "00:00:00:00:00:00:00:02" None ].
Proof. by vm_compute. Qed.

(** * Further properties *)

(** ** main: what a run installs *)

Lemma enumerate_from_snd {A} (l : list A) k :
  (combine (seq k (length l)) l).*2 = l.
Proof.
  revert k. induction l as [|x l IH]; intros k; simpl; [done|]. by rewrite IH.
Qed.

Lemma enumerate_snd {A} (l : list A) : (enumerate l).*2 = l.
Proof. apply enumerate_from_snd. Qed.

Lemma enumerate_elem_of {A} (l : list A) x : x ∈ enumerate l → x.2 ∈ l.
Proof.
  intros Hx. rewrite <- (enumerate_snd l). apply list_elem_of_fmap. by exists x.
Qed.

Lemma install_flows_cons fl name_prefix hp last_resort i sw hops :
  install_flows fl name_prefix hp last_resort ((i, sw) :: hops)
  = bind (lift (hop_getitem hp sw)) (λ io,
      bind (emit (push_flow fl sw
                    (name_prefix +:+ str_of_int (Z.of_nat (i + 1))) io.1
                    (match io.2 with None => Some last_resort | p => p end)
                    default_priority))
           (λ _, install_flows fl name_prefix hp last_resort hops)).
Proof. reflexivity. Qed.

(** With every switch a key, the loop posts one rule per hop and ends. *)
Lemma install_flows_rules fl name_prefix hp last_resort hops :
  (∀ x, x ∈ hops → is_Some (hp !! x.2)) →
  install_flows fl name_prefix hp last_resort hops
  = (rule_of fl name_prefix hp last_resort <$> hops, Ok tt).
Proof.
  induction hops as [|[i sw] hops IH]; intros Hkeys; [done|].
  rewrite install_flows_cons.
  destruct (Hkeys (i, sw) (list_elem_of_here _ _)) as [io Hio]. simpl in Hio.
  rewrite fmap_cons, IH by (intros x Hx; by apply Hkeys, list_elem_of_further).
  unfold hop_getitem, lift, rule_of, port in *. cbn [fst snd].
  rewrite Hio. reflexivity.
Qed.

(** The override succeeds on a non-empty path whose switches are keys, and
    changes no key. *)
Lemma override_endpoints_spec hp path first_in last_out :
  path ≠ [] → (∀ sw, sw ∈ path → is_Some (hp !! sw)) →
  ∃ sw0 swn io0 ion,
    head path = Some sw0 ∧ last path = Some swn ∧
    hp !! sw0 = Some io0 ∧
    <[sw0 := (Some first_in, io0.2)]> hp !! swn = Some ion ∧
    override_endpoints hp path first_in last_out
    = Ok (<[swn := (ion.1, Some last_out)]>
            (<[sw0 := (Some first_in, io0.2)]> hp)).
Proof.
  intros Hne Hkeys.
  destruct (head path) as [sw0|] eqn:Hhead; [|by destruct path].
  destruct (last path) as [swn|] eqn:Hlast;
    [|apply last_None in Hlast; done].
  assert (sw0 ∈ path) as H0 by (destruct path; simplify_eq/=; apply list_elem_of_here).
  assert (swn ∈ path) as Hn.
  { rewrite last_lookup in Hlast. by eapply list_elem_of_lookup_2. }
  destruct (Hkeys sw0 H0) as [io0 Hio0].
  assert (is_Some (<[sw0 := (Some first_in, io0.2)]> hp !! swn)) as [ion Hion].
  { rewrite lookup_insert. case_decide; [by eexists|by apply Hkeys]. }
  exists sw0, swn, io0, ion. repeat (split; [done|]).
  unfold override_endpoints, path_first, path_last, hop_getitem.
  rewrite Hhead, Hlast. simpl. rewrite Hio0. simpl. by rewrite Hion.
Qed.

Lemma override_endpoints_keys hp hp' path first_in last_out sw :
  path ≠ [] → (∀ sw, sw ∈ path → is_Some (hp !! sw)) →
  override_endpoints hp path first_in last_out = Ok hp' →
  sw ∈ path → is_Some (hp' !! sw).
Proof.
  intros Hne Hkeys Hov Hsw.
  destruct (override_endpoints_spec hp path first_in last_out Hne Hkeys)
    as (sw0 & swn & io0 & ion & _ & _ & _ & _ & Heq).
  rewrite Heq in Hov. injection Hov as <-.
  rewrite !lookup_insert. repeat case_decide; try by eexists. by apply Hkeys.
Qed.

Lemma path_ports_keys g path sw :
  sw ∈ path → is_Some (path_ports_for_switches g path !! sw).
Proof.
  intros Hsw. apply elem_of_dom. rewrite dom_path_ports.
  by apply elem_of_list_to_set.
Qed.

Lemma shortest_switch_path_nonempty g a b path :
  shortest_switch_path g a b = Some path → path ≠ [].
Proof.
  intros Hp. pose proof (shortest_switch_path_post g a b) as Hpost.
  rewrite Hp in Hpost. by destruct Hpost as (((Hne & _) & _) & _).
Qed.

(** The two shapes of a run: it stops before any installation, on the
    exception of a query or on [SystemExit]; or it installs one rule per hop,
    forward and, when asked, in reverse, and ends normally. *)
Lemma main_cases (args : Args)
    (directory : result (option attachment * option attachment))
    (topology : result (list Link)) :
  let run := main args directory topology in
  (installs run.1 = [] ∧
   ∃ e, run.2 = Raise e ∧
        (directory = Raise e ∨ topology = Raise e ∨ ∃ why, e = SystemExit why)) ∨
  (∃ picked src_ap dst_ap links path hpf hpr,
     directory = Ok picked ∧
     resolve_attachments args picked.1 picked.2 = (Some src_ap, Some dst_ap) ∧
     topology = Ok links ∧ links ≠ [] ∧
     shortest_switch_path (build_switch_graph links) src_ap.1 dst_ap.1
       = Some path ∧
     override_endpoints
       (path_ports_for_switches (build_switch_graph links) path)
       path src_ap.2 dst_ap.2 = Ok hpf ∧
     override_endpoints
       (path_ports_for_switches (build_switch_graph links) (reverse path))
       (reverse path) dst_ap.2 src_ap.2 = Ok hpr ∧
     run = (Get (devices_url args) :: Get (links_url args) ::
            (rule_of (rstrip_char "/" (arg_floodlight args)) (fwd_prefix args)
                     hpf dst_ap.2 <$> enumerate path) ++
            (if arg_bidirectional args
             then rule_of (rstrip_char "/" (arg_floodlight args))
                          (rev_prefix args) hpr src_ap.2
                  <$> enumerate (reverse path)
             else []),
            Ok tt)).
Proof.
  intros run. subst run. unfold main, devices_url, links_url.
  destruct directory as [picked|e]; simpl.
  2:{ left. split; [done|]. exists e. split; [done|]. by left. }
  destruct (resolve_attachments args picked.1 picked.2)
    as [[[ss sp]|] [[ds dp]|]] eqn:Hres; simpl;
    try (left; split; [done|]; eexists; split; [done|]; right; right; by eexists).
  destruct topology as [links|e]; simpl.
  2:{ left. split; [done|]. exists e. split; [done|]. right. by left. }
  destruct links as [|l links]; simpl.
  { left. split; [done|]. eexists. split; [done|]. right; right. by eexists. }
  set (g := build_switch_graph (l :: links)).
  destruct (shortest_switch_path g ss ds) as [path|] eqn:Hpath.
  2:{ destruct (String.eqb_spec ss ds) as [->|Hne].
      { unfold shortest_switch_path in Hpath.
        by rewrite String.eqb_refl in Hpath. }
      simpl. left. split; [done|]. eexists. split; [done|].
      right; right. by eexists. }
  right. pose proof (shortest_switch_path_nonempty _ _ _ _ Hpath) as Hne.
  assert (reverse path ≠ []) as Hner.
  { intros Hr. apply Hne. apply (f_equal length) in Hr.
    rewrite length_reverse in Hr. by destruct path. }
  destruct (override_endpoints_spec (path_ports_for_switches g path) path sp dp
              Hne (λ sw, path_ports_keys g path sw))
    as (? & ? & ? & ? & _ & _ & _ & _ & Hf).
  destruct (override_endpoints_spec
              (path_ports_for_switches g (reverse path)) (reverse path) dp sp
              Hner (λ sw, path_ports_keys g (reverse path) sw))
    as (? & ? & ? & ? & _ & _ & _ & _ & Hr).
  eexists picked, (ss, sp), (ds, dp), (l :: links), path, _, _.
  split; [done|]. split; [done|]. split; [done|]. split; [done|].
  split; [done|]. split; [exact Hf|]. split; [exact Hr|].
  simpl. rewrite Hf. simpl.
  rewrite install_flows_rules.
  2:{ intros y Hy. apply enumerate_elem_of in Hy.
      eapply override_endpoints_keys; [exact Hne| |exact Hf|exact Hy].
      intros sw. apply path_ports_keys. }
  simpl. destruct (arg_bidirectional args); simpl.
  - rewrite Hr. simpl. rewrite install_flows_rules.
    2:{ intros y Hy. apply enumerate_elem_of in Hy.
        eapply override_endpoints_keys; [exact Hner| |exact Hr|exact Hy].
        intros sw. apply path_ports_keys. }
    simpl. by rewrite ?app_nil_r.
  - by rewrite ?app_nil_r.
Qed.

(** *** The fields of a posted rule *)

Lemma push_flow_switch fl sw name i o pr :
  rule_field (push_flow fl sw name i o pr) "switch" = Some sw.
Proof. by destruct i. Qed.

Lemma push_flow_name fl sw name i o pr :
  rule_field (push_flow fl sw name i o pr) "name" = Some name.
Proof. by destruct i. Qed.

Lemma push_flow_in_port fl sw name i o pr :
  rule_field (push_flow fl sw name i o pr) "in_port" = str_of_int <$> i.
Proof. by destruct i. Qed.

Lemma push_flow_actions fl sw name i o pr :
  rule_field (push_flow fl sw name i o pr) "actions"
  = Some ("output=" +:+ format_port o).
Proof. by destruct i. Qed.

Lemma installs_rules fl name_prefix hp last_resort hops :
  installs (rule_of fl name_prefix hp last_resort <$> hops)
  = rule_of fl name_prefix hp last_resort <$> hops.
Proof.
  unfold installs. induction hops as [|x hops IH]; [done|].
  rewrite fmap_cons. cbn [List.filter]. unfold rule_of at 1, push_flow at 1.
  cbn [is_install]. by rewrite IH.
Qed.

Lemma installs_app t1 t2 : installs (t1 ++ t2) = installs t1 ++ installs t2.
Proof. apply List.filter_app. Qed.

Lemma enumerate_from_lookup {A} (l : list A) k i x :
  l !! i = Some x → combine (seq k (length l)) l !! i = Some (k + i, x).
Proof.
  revert k i. induction l as [|y l IH]; intros k [|i] Hi; simplify_eq/=.
  - by rewrite Nat.add_0_r.
  - rewrite (IH (S k) i Hi). f_equal. f_equal. lia.
Qed.

Lemma enumerate_lookup {A} (l : list A) i x :
  l !! i = Some x → enumerate l !! i = Some (i, x).
Proof. apply (enumerate_from_lookup l 0). Qed.

Lemma enumerate_from_fst {A} (l : list A) k :
  (combine (seq k (length l)) l).*1 = seq k (length l).
Proof.
  revert k. induction l as [|x l IH]; intros k; simpl; [done|]. by rewrite IH.
Qed.

Lemma enumerate_fst {A} (l : list A) : (enumerate l).*1 = seq 0 (length l).
Proof. apply enumerate_from_fst. Qed.

Lemma length_enumerate {A} (l : list A) : length (enumerate l) = length l.
Proof. by rewrite <- (length_fmap snd), enumerate_snd. Qed.

(** The installation requests of a completed run. *)
Lemma main_completed args directory topology :
  (main args directory topology).2 = Ok tt →
  ∃ picked src_ap dst_ap links path hpf hpr,
    directory = Ok picked ∧
    resolve_attachments args picked.1 picked.2 = (Some src_ap, Some dst_ap) ∧
    topology = Ok links ∧ links ≠ [] ∧
    shortest_switch_path (build_switch_graph links) src_ap.1 dst_ap.1
      = Some path ∧
    override_endpoints
      (path_ports_for_switches (build_switch_graph links) path)
      path src_ap.2 dst_ap.2 = Ok hpf ∧
    override_endpoints
      (path_ports_for_switches (build_switch_graph links) (reverse path))
      (reverse path) dst_ap.2 src_ap.2 = Ok hpr ∧
    installs (main args directory topology).1
    = (rule_of (rstrip_char "/" (arg_floodlight args)) (fwd_prefix args)
               hpf dst_ap.2 <$> enumerate path) ++
      (if arg_bidirectional args
       then rule_of (rstrip_char "/" (arg_floodlight args)) (rev_prefix args)
                    hpr src_ap.2 <$> enumerate (reverse path)
       else []).
Proof.
  intros Hok.
  destruct (main_cases args directory topology)
    as [[_ (e & He & _)]|(picked & src_ap & dst_ap & links & path & hpf & hpr &
        Hd & Hres & Ht & Hl & Hp & Hf & Hr & Hrun)]; [congruence|].
  exists picked, src_ap, dst_ap, links, path, hpf, hpr.
  repeat (split; [done|]). rewrite Hrun. cbn [fst].
  change (Get ?a :: Get ?b :: ?t) with ([Get a; Get b] ++ t).
  rewrite !installs_app, installs_rules.
  destruct (arg_bidirectional args); [by rewrite installs_rules|done].
Qed.

(** What the installed requests of any run are: none, or those of a
    completed run. *)
Lemma main_installs args directory topology :
  installs (main args directory topology).1 = [] ∨
  (main args directory topology).2 = Ok tt.
Proof.
  destruct (main_cases args directory topology)
    as [[Hnone _]|(? & ? & ? & ? & ? & ? & ? & _ & _ & _ & _ & _ & _ & _ & ->)];
    [by left|by right].
Qed.



(** X2: in a completed run the installed rules go, in order, to the switches
    of the path that the search returned, then, with --bidirectional, to the
    same switches in reverse order: one rule per switch and direction. *)
Theorem installed_rules_follow_path (args : Args)
    (directory : result (option attachment * option attachment))
    (topology : result (list Link)) :
  (main args directory topology).2 = Ok tt →
  ∃ picked src_ap dst_ap links path,
    directory = Ok picked ∧
    resolve_attachments args picked.1 picked.2 = (Some src_ap, Some dst_ap) ∧
    topology = Ok links ∧
    shortest_switch_path (build_switch_graph links) src_ap.1 dst_ap.1
      = Some path ∧
    (λ r, rule_field r "switch") <$> installs (main args directory topology).1
    = Some <$> (path ++ if arg_bidirectional args then reverse path else []).
Proof.
  intros Hok.
  destruct (main_completed args directory topology Hok)
    as (picked & src_ap & dst_ap & links & path & hpf & hpr &
        Hd & Hres & Ht & _ & Hp & _ & _ & Hrun).
  exists picked, src_ap, dst_ap, links, path. repeat (split; [done|]).
  rewrite Hrun, !fmap_app.
  assert (∀ fl pre hp lr (l : list string),
            (λ r, rule_field r "switch") <$> (rule_of fl pre hp lr <$> enumerate l)
            = Some <$> l) as Hsw.
  { intros fl pre hp lr l. rewrite <- list_fmap_compose.
    rewrite <- (enumerate_snd l) at 2. rewrite <- list_fmap_compose.
    apply list_fmap_ext. intros i x _. unfold compose, rule_of.
    apply push_flow_switch. }
  rewrite Hsw. destruct (arg_bidirectional args); [by rewrite Hsw|done].
Qed.

Lemma installed_rules_follow_path_witness :
  let args := mkArgs "h1" "h3" "http://127.0.0.1:8080" true in
  (main args (Ok (None, None)) (Ok line_links)).2 = Ok tt ∧
  ∃ picked src_ap dst_ap links path,
    (Ok (None, None) : result (option attachment * option attachment))
      = Ok picked ∧
    resolve_attachments args picked.1 picked.2 = (Some src_ap, Some dst_ap) ∧
    Ok line_links = Ok links ∧
    shortest_switch_path (build_switch_graph links) src_ap.1 dst_ap.1
      = Some path ∧
    (λ r, rule_field r "switch")
      <$> installs (main args (Ok (None, None)) (Ok line_links)).1
    = Some <$> (path ++ if arg_bidirectional args then reverse path else []).
Proof.
  intros args.
  assert ((main args (Ok (None, None)) (Ok line_links)).2 = Ok tt) as H
    by (by vm_compute).
  exact (conj H (installed_rules_follow_path args _ _ H)).
Defined.

Lemma rule_of_actions fl name_prefix hp last_resort x :
  ∃ n : Z, rule_field (rule_of fl name_prefix hp last_resort x) "actions"
           = Some ("output=" +:+ str_of_int n).
Proof.
  unfold rule_of. rewrite push_flow_actions.
  destruct (default (None, None) (hp !! x.2)).2 as [n|]; by eexists.
Qed.

(** X3: every rule that a run installs names an output port that is an
    integer: the text of its action is never output=None, also where the
    topology gives no port for a hop. *)
Theorem installed_rules_output_integer (args : Args)
    (directory : result (option attachment * option attachment))
    (topology : result (list Link)) (r : event) :
  r ∈ installs (main args directory topology).1 →
  ∃ n : Z, rule_field r "actions" = Some ("output=" +:+ str_of_int n).
Proof.
  intros Hr.
  destruct (main_installs args directory topology) as [Hnone|Hok].
  { rewrite Hnone in Hr. by apply elem_of_nil in Hr. }
  destruct (main_completed args directory topology Hok)
    as (? & ? & ? & ? & ? & ? & ? & _ & _ & _ & _ & _ & _ & _ & Hrun).
  rewrite Hrun in Hr. apply elem_of_app in Hr as [Hr|Hr].
  - apply list_elem_of_fmap in Hr as (hop & -> & _). apply rule_of_actions.
  - destruct (arg_bidirectional args); [|by apply elem_of_nil in Hr].
    apply list_elem_of_fmap in Hr as (hop & -> & _). apply rule_of_actions.
Qed.

Lemma installed_rules_output_integer_witness :
  let args := mkArgs "h1" "h2" "http://127.0.0.1:8080" false in
  let links := [mkLink "00:00:00:00:00:00:00:01" None
                       "00:00:00:00:00:00:00:02" None] in
  let r := push_flow "http://127.0.0.1:8080" "00:00:00:00:00:00:00:01"
             "fwd_h1_to_h2_1" (Some 1%Z) (Some 1%Z) default_priority in
  r ∈ installs (main args (Ok (None, None)) (Ok links)).1 ∧
  ∃ n : Z, rule_field r "actions" = Some ("output=" +:+ str_of_int n).
Proof.
  intros args links r.
  assert (r ∈ installs (main args (Ok (None, None)) (Ok links)).1) as H.
  { vm_compute. apply list_elem_of_here. }
  exact (conj H (installed_rules_output_integer args _ _ r H)).
Defined.

(** The two assignments of [override_endpoints], read back. *)
Lemma override_endpoints_ends hp hp' path first_in last_out :
  override_endpoints hp path first_in last_out = Ok hp' →
  ∃ sw0 swn o i,
    head path = Some sw0 ∧ last path = Some swn ∧
    hp' !! sw0 = Some (Some first_in, o) ∧
    hp' !! swn = Some (i, Some last_out).
Proof.
  unfold override_endpoints, path_first, path_last, hop_getitem. intros Hov.
  destruct (head path) as [sw0|]; [|done].
  destruct (last path) as [swn|]; simpl in Hov.
  2:{ by destruct (hp !! sw0). }
  destruct (hp !! sw0) as [io0|]; simpl in Hov; [|done].
  destruct (<[sw0 := (Some first_in, io0.2)]> hp !! swn) as [ion|] eqn:Hion;
    simpl in Hov; [|done].
  injection Hov as <-.
  destruct (decide (sw0 = swn)) as [<-|Hne].
  - rewrite lookup_insert_eq in Hion. injection Hion as <-.
    exists sw0, sw0, (Some last_out), (Some first_in).
    by rewrite !lookup_insert_eq.
  - exists sw0, swn, io0.2, ion.1.
    rewrite lookup_insert_ne, !lookup_insert_eq by done. done.
Qed.

Lemma rule_at fl name_prefix hp last_resort (path : list string) i sw :
  path !! i = Some sw →
  (rule_of fl name_prefix hp last_resort <$> enumerate path) !! i
  = Some (rule_of fl name_prefix hp last_resort (i, sw)).
Proof.
  intros Hi. by rewrite list_lookup_fmap, (enumerate_lookup _ _ _ Hi).
Qed.

(** X4: in a completed run the first rule matches the port where the source
    host is attached, and the rule for the last switch of the path sends to
    the port where the destination host is attached. *)
Theorem forward_rules_reach_hosts (args : Args)
    (directory : result (option attachment * option attachment))
    (topology : result (list Link)) :
  (main args directory topology).2 = Ok tt →
  ∃ picked src_ap dst_ap links path first last,
    directory = Ok picked ∧
    resolve_attachments args picked.1 picked.2 = (Some src_ap, Some dst_ap) ∧
    topology = Ok links ∧
    shortest_switch_path (build_switch_graph links) src_ap.1 dst_ap.1
      = Some path ∧
    installs (main args directory topology).1 !! 0 = Some first ∧
    installs (main args directory topology).1 !! (length path - 1)
      = Some last ∧
    rule_field first "switch" = Some src_ap.1 ∧
    rule_field first "in_port" = Some (str_of_int src_ap.2) ∧
    rule_field last "switch" = Some dst_ap.1 ∧
    rule_field last "actions" = Some ("output=" +:+ str_of_int dst_ap.2).
Proof.
  intros Hok.
  destruct (main_completed args directory topology Hok)
    as (picked & src_ap & dst_ap & links & path & hpf & hpr &
        Hd & Hres & Ht & _ & Hp & Hf & _ & Hrun).
  destruct (override_endpoints_ends _ _ _ _ _ Hf)
    as (sw0 & swn & o & i & Hhead & Hlast & H0 & Hn).
  pose proof (shortest_switch_path_post (build_switch_graph links)
                src_ap.1 dst_ap.1) as Hpost.
  rewrite Hp in Hpost. destruct Hpost as ((_ & Hh & Hl) & _).
  assert (sw0 = src_ap.1) as -> by congruence.
  assert (swn = dst_ap.1) as -> by congruence.
  assert (path !! 0 = Some src_ap.1) as Hi0 by (by destruct path).
  assert (path !! (length path - 1) = Some dst_ap.1) as Hin.
  { rewrite last_lookup in Hlast. by replace (length path - 1) with (pred (length path)) by lia. }
  set (fl := rstrip_char "/" (arg_floodlight args)) in *.
  exists picked, src_ap, dst_ap, links, path,
    (rule_of fl (fwd_prefix args) hpf dst_ap.2 (0, src_ap.1)),
    (rule_of fl (fwd_prefix args) hpf dst_ap.2 (length path - 1, dst_ap.1)).
  repeat (split; [done|]). rewrite Hrun.
  assert (length path - 1 < length path) as Hlt.
  { apply lookup_lt_Some in Hin. lia. }
  rewrite !lookup_app_l by (by rewrite length_fmap, length_enumerate; lia).
  rewrite !(rule_at _ _ _ _ path _ _ Hi0), !(rule_at _ _ _ _ path _ _ Hin).
  unfold rule_of. cbn [fst snd].
  rewrite !push_flow_switch, push_flow_in_port, push_flow_actions.
  unfold port in *. rewrite H0, Hn. done.
Qed.

Lemma forward_rules_reach_hosts_witness :
  let args := mkArgs "h1" "h3" "http://127.0.0.1:8080" false in
  (main args (Ok (None, None)) (Ok line_links)).2 = Ok tt ∧
  ∃ picked src_ap dst_ap links path first last,
    (Ok (None, None) : result (option attachment * option attachment))
      = Ok picked ∧
    resolve_attachments args picked.1 picked.2 = (Some src_ap, Some dst_ap) ∧
    Ok line_links = Ok links ∧
    shortest_switch_path (build_switch_graph links) src_ap.1 dst_ap.1
      = Some path ∧
    installs (main args (Ok (None, None)) (Ok line_links)).1 !! 0
      = Some first ∧
    installs (main args (Ok (None, None)) (Ok line_links)).1
      !! (length path - 1) = Some last ∧
    rule_field first "switch" = Some src_ap.1 ∧
    rule_field first "in_port" = Some (str_of_int src_ap.2) ∧
    rule_field last "switch" = Some dst_ap.1 ∧
    rule_field last "actions" = Some ("output=" +:+ str_of_int dst_ap.2).
Proof.
  intros args.
  assert ((main args (Ok (None, None)) (Ok line_links)).2 = Ok tt) as H
    by (by vm_compute).
  exact (conj H (forward_rules_reach_hosts args _ _ H)).
Defined.

(** *** Rule names *)

Lemma append_inj_r (p a b : string) : p +:+ a = p +:+ b → a = b.
Proof. induction p as [|c p IH]; simpl; [done|]. intros [= H]. by apply IH. Qed.

Lemma to_int_nonnil (n : Z) :
  Z.to_int n ≠ Decimal.Pos Decimal.Nil ∧ Z.to_int n ≠ Decimal.Neg Decimal.Nil.
Proof.
  destruct n as [|p|p]; simpl; split; try discriminate;
    intros [= E]; by apply DecimalPos.Unsigned.to_uint_nonnil in E.
Qed.

(** [str] of an integer determines the integer. *)
Lemma str_of_int_inj (a b : Z) : str_of_int a = str_of_int b → a = b.
Proof.
  unfold str_of_int. intros H. apply DecimalZ.to_int_inj.
  apply (f_equal NilZero.int_of_string) in H.
  destruct (to_int_nonnil a), (to_int_nonnil b).
  rewrite !NilZero.isi in H by done. congruence.
Qed.

Lemma rule_names fl name_prefix hp last_resort (l : list string) :
  (λ r, rule_field r "name")
    <$> (rule_of fl name_prefix hp last_resort <$> enumerate l)
  = (λ i, Some (name_prefix +:+ str_of_int (Z.of_nat (i + 1))))
    <$> seq 0 (length l).
Proof.
  rewrite <- enumerate_fst, <- !list_fmap_compose.
  apply list_fmap_ext. intros i x _. unfold compose, rule_of.
  apply push_flow_name.
Qed.

Lemma rule_names_NoDup name_prefix n :
  NoDup ((λ i, Some (name_prefix +:+ str_of_int (Z.of_nat (i + 1))))
           <$> seq 0 n).
Proof.
  apply NoDup_fmap_2_strong; [|apply NoDup_seq].
  intros i j _ _ [= H]. apply append_inj_r, str_of_int_inj in H. lia.
Qed.

(** X5: the rules that a run installs have pairwise different names, across
    both directions, so that no rule of a run replaces another one in the
    controller's table of named static flows. *)
Theorem installed_rule_names_distinct (args : Args)
    (directory : result (option attachment * option attachment))
    (topology : result (list Link)) :
  NoDup ((λ r, rule_field r "name")
           <$> installs (main args directory topology).1).
Proof.
  destruct (main_installs args directory topology) as [->|Hok];
    [apply NoDup_nil_2|].
  destruct (main_completed args directory topology Hok)
    as (? & ? & ? & ? & path & ? & ? & _ & _ & _ & _ & _ & _ & _ & ->).
  rewrite fmap_app, rule_names. apply NoDup_app. split; [|split].
  - apply rule_names_NoDup.
  - intros name Hf Hr. destruct (arg_bidirectional args);
      [|by apply elem_of_nil in Hr].
    rewrite rule_names in Hr.
    apply list_elem_of_fmap in Hf as (i & -> & _).
    apply list_elem_of_fmap in Hr as (j & Hj & _).
    unfold fwd_prefix, rev_prefix in Hj. simpl in Hj. discriminate.
  - destruct (arg_bidirectional args); [|apply NoDup_nil_2].
    rewrite rule_names. apply rule_names_NoDup.
Qed.

(** *** The reverse direction *)

Lemma path_ports_reverse_swap g switch_path :
  NoDup switch_path →
  path_ports_for_switches g (reverse switch_path)
  = prod_swap <$> path_ports_for_switches g switch_path.
Proof.
  intros Hnd. apply map_eq. intros sw. rewrite lookup_fmap.
  destruct (decide (sw ∈ switch_path)) as [Hin|Hout].
  - apply list_elem_of_lookup in Hin as [i Hi].
    by rewrite (path_ports_reverse g _ i sw Hnd Hi),
               (path_ports_lookup g _ i sw Hnd Hi).
  - assert (path_ports_for_switches g switch_path !! sw = None) as ->.
    { apply not_elem_of_dom. rewrite dom_path_ports.
      by rewrite elem_of_list_to_set. }
    apply not_elem_of_dom. rewrite dom_path_ports.
    by rewrite elem_of_list_to_set, elem_of_reverse.
Qed.

Lemma override_endpoints_swap (hp hp' : hop_map) path first_in last_out :
  override_endpoints hp path first_in last_out = Ok hp' →
  override_endpoints (prod_swap <$> hp) (reverse path) last_out first_in
  = Ok (prod_swap <$> hp').
Proof.
  unfold override_endpoints, path_first, path_last, hop_getitem.
  rewrite head_reverse, last_reverse. intros Hov.
  destruct (head path) as [sw0|]; [|done].
  destruct (last path) as [swn|]; simpl in Hov.
  2:{ by destruct (hp !! sw0). }
  destruct (hp !! sw0) as [io0|] eqn:H0; simpl in Hov; [|done].
  destruct (<[sw0 := (Some first_in, io0.2)]> hp !! swn) as [ion|] eqn:Hion;
    simpl in Hov; [|done].
  injection Hov as <-. simpl.
  destruct (decide (sw0 = swn)) as [<-|Hne].
  - rewrite lookup_insert_eq in Hion. injection Hion as <-.
    rewrite lookup_fmap, H0. simpl. rewrite lookup_insert_eq. simpl.
    f_equal. rewrite !fmap_insert, !insert_insert_eq. done.
  - rewrite lookup_insert_ne in Hion by done.
    rewrite lookup_fmap, Hion. simpl.
    rewrite lookup_insert_ne, lookup_fmap, H0 by done. simpl.
    f_equal. rewrite !fmap_insert. simpl.
    by rewrite insert_insert_ne.
Qed.

(** X6: on the path that the search returns, the port table of the reverse
    direction, after the host ports are put at its ends, is the forward
    table with the two ports of every switch exchanged. *)
Theorem reverse_table_mirrors_forward (g : graph) (src_sw dst_sw : string)
    (path : list string) (src_port dst_port : Z) (hop_ports : hop_map) :
  shortest_switch_path g src_sw dst_sw = Some path →
  override_endpoints (path_ports_for_switches g path) path src_port dst_port
    = Ok hop_ports →
  override_endpoints (path_ports_for_switches g (reverse path)) (reverse path)
                     dst_port src_port
  = Ok (prod_swap <$> hop_ports).
Proof.
  intros Hp Hov. pose proof (shortest_switch_path_post g src_sw dst_sw) as Hpost.
  rewrite Hp in Hpost. destruct Hpost as (_ & Hnd & _).
  rewrite (path_ports_reverse_swap g path Hnd).
  by apply override_endpoints_swap.
Qed.

Lemma reverse_table_mirrors_forward_witness :
  let hp : hop_map :=
    list_to_map [ ("00:00:00:00:00:00:00:01", (Some 1%Z, Some 2%Z));
                  ("00:00:00:00:00:00:00:02", (Some 2%Z, Some 3%Z));
                  ("00:00:00:00:00:00:00:03", (Some 2%Z, Some 1%Z)) ] in
  shortest_switch_path line_graph "00:00:00:00:00:00:00:01"
    "00:00:00:00:00:00:00:03" = Some line_path ∧
  override_endpoints (path_ports_for_switches line_graph line_path) line_path
                     1%Z 1%Z = Ok hp ∧
  override_endpoints (path_ports_for_switches line_graph (reverse line_path))
                     (reverse line_path) 1%Z 1%Z
  = Ok (prod_swap <$> hp).
Proof.
  intros hp.
  assert (override_endpoints (path_ports_for_switches line_graph line_path)
            line_path 1%Z 1%Z = Ok hp) as H by (vm_compute; reflexivity).
  exact (conj line_path_computed (conj H
    (reverse_table_mirrors_forward line_graph _ _ line_path 1%Z 1%Z hp
       line_path_computed H))).
Defined.

(** ** Device Locator *)

Lemma endswith_spec (s suffix : string) :
  endswith s suffix = true ↔ ∃ p, s = p +:+ suffix.
Proof.
  split.
  - induction s as [|c s IH]; cbn [endswith].
    + rewrite orb_false_r. intros H%String.eqb_eq. by exists "".
    + intros [H%String.eqb_eq|H]%orb_true_iff; [by exists ""|].
      destruct (IH H) as [p ->]. by exists (String c p).
  - intros [p ->]. induction p as [|c p IH].
    + change (endswith suffix suffix = true).
      destruct suffix; cbn [endswith]; by rewrite String.eqb_refl.
    + change (endswith (String c (p +:+ suffix)) suffix = true).
      cbn [endswith]. by rewrite IH, orb_true_r.
Qed.

Lemma ip_matches_spec suffix ips :
  ip_matches suffix ips = true ↔
  ∃ s p, JStr s ∈ ips ∧ str_strip s = p +:+ suffix.
Proof.
  induction ips as [|x ips IH].
  - split; [done|]. intros (s & p & Hin & _). by apply elem_of_nil in Hin.
  - assert ((∃ s p, JStr s ∈ ips ∧ str_strip s = p +:+ suffix) →
            ∃ s p, JStr s ∈ x :: ips ∧ str_strip s = p +:+ suffix) as Hweak.
    { intros (s & p & Hin & Hs). exists s, p. split; [|done].
      by apply list_elem_of_further. }
    destruct x; simpl; rewrite ?orb_true_iff, IH;
      (split;
       [intros H; first [apply (Hweak H) | destruct H as [H|H]; [|apply (Hweak H)]]
       |intros (s' & p & [Hin|Hin]%elem_of_cons & Hs);
        [try discriminate|first [right; by exists s', p | by exists s', p]]]).
    + apply endswith_spec in H as [p Hp]. exists s, p. split; [|done].
      apply list_elem_of_here.
    + injection Hin as ->. left. apply endswith_spec. by exists p.
Qed.

Lemma mac_matches_spec suffix macs :
  match mac_matches suffix macs with
  | Ok true => ∃ s p, JStr s ∈ macs ∧ str_strip s = p +:+ suffix
  | Ok false => ¬ ∃ s p, JStr s ∈ macs ∧ str_strip s = p +:+ suffix
  | Raise e => e = AttributeError ∧ ∃ x, x ∈ macs ∧ is_str x = false
  end.
Proof.
  induction macs as [|x macs IH]; simpl.
  { intros (s & p & Hin & _). by apply elem_of_nil in Hin. }
  destruct x as [| | | |s| |];
    try (split; [done|]; eexists; split; [apply list_elem_of_here|done]).
  destruct (endswith (str_strip s) suffix) eqn:Hs.
  - apply endswith_spec in Hs as [p Hp]. exists s, p.
    split; [apply list_elem_of_here|done].
  - destruct (mac_matches suffix macs) as [[|]|e].
    + destruct IH as (s' & p & Hin & Hp). exists s', p.
      split; [by apply list_elem_of_further|done].
    + intros (s' & p & [Hin|Hin]%elem_of_cons & Hp).
      * injection Hin as ->.
        assert (endswith (str_strip s) suffix = true) as Ht
          by (apply endswith_spec; by exists p).
        congruence.
      * apply IH. by exists s', p.
    + destruct IH as (-> & x & Hin & Hx). split; [done|].
      exists x. split; [by apply list_elem_of_further|done].
Qed.

Lemma ip_hit_spec n dev v :
  get_or dev ipv4_keys = Ok v →
  match as_list v with
  | Some ips => ip_matches ("." +:+ str_of_int n) ips
  | None => false
  end = true ↔ ip_match n dev.
Proof.
  intros Hv. unfold ip_match. split.
  - destruct (as_list v) as [ips|] eqn:Hl; [|done].
    intros (s & p & Hin & Hs)%ip_matches_spec. by exists v, ips, s, p.
  - intros (v' & ips & s & p & Hv' & Hl & Hin & Hs).
    rewrite Hv in Hv'. injection Hv' as <-. rewrite Hl.
    apply ip_matches_spec. by exists s, p.
Qed.

Lemma mac_hit_spec n dev v :
  is_dict dev = true → get_or dev mac_keys = Ok v →
  match match as_list v with
        | Some macs => mac_matches (format_02x n) macs
        | None => Ok false
        end with
  | Ok true => mac_match n dev
  | Ok false => ¬ mac_match n dev
  | Raise e => e = AttributeError ∧ mac_malformed dev
  end.
Proof.
  intros Hd Hv. unfold mac_match, mac_malformed.
  destruct (as_list v) as [macs|] eqn:Hl.
  - pose proof (mac_matches_spec (format_02x n) macs) as Hm.
    destruct (mac_matches (format_02x n) macs) as [[|]|e].
    + destruct Hm as (s & p & Hin & Hs). by exists v, macs, s, p.
    + intros (v' & macs' & s & p & Hv' & Hl' & Hin & Hs). apply Hm.
      rewrite Hv in Hv'. injection Hv' as <-.
      rewrite Hl in Hl'. injection Hl' as <-. by exists s, p.
    + destruct Hm as (-> & x & Hin & Hx). split; [done|]. by exists v, macs, x.
  - intros (v' & macs' & s & p & Hv' & Hl' & _).
    rewrite Hv in Hv'. injection Hv' as <-. congruence.
Qed.

(** The loop of [find_device_by_name] for a host with an ordinal. *)
Lemma find_device_loop_spec n devices :
  match find_device_loop (Some n) devices with
  | Ok (Some dev) =>
      ∃ before after,
        devices = before ++ dev :: after ∧ device_matches n dev ∧
        ∀ d, d ∈ before → ¬ device_matches n d
  | Ok None => ∀ d, d ∈ devices → ¬ device_matches n d
  | Raise e =>
      e = AttributeError ∧ ∃ dev, dev ∈ devices ∧ mac_malformed dev
  end.
Proof.
  induction devices as [|dev devices IH].
  { simpl. intros d Hd. by apply elem_of_nil in Hd. }
  assert (¬ device_matches n dev →
          match find_device_loop (Some n) devices with
          | Ok (Some dev') =>
              ∃ before after,
                dev :: devices = before ++ dev' :: after ∧
                device_matches n dev' ∧ ∀ d, d ∈ before → ¬ device_matches n d
          | Ok None => ∀ d, d ∈ dev :: devices → ¬ device_matches n d
          | Raise e =>
              e = AttributeError ∧ ∃ dev', dev' ∈ dev :: devices ∧ mac_malformed dev'
          end) as Hskip.
  { intros Hno. destruct (find_device_loop (Some n) devices) as [[dev'|]|e].
    - destruct IH as (before & after & -> & Hm & Hb).
      exists (dev :: before), after. split; [done|]. split; [done|].
      intros d [->|Hd]%elem_of_cons; [done|by apply Hb].
    - intros d [->|Hd]%elem_of_cons; [done|by apply IH].
    - destruct IH as (-> & dev' & Hin & Hbad). split; [done|].
      exists dev'. split; [by apply list_elem_of_further|done]. }
  cbn [find_device_loop].
  destruct (is_dict dev) eqn:Hd; cbn [negb].
  2:{ apply Hskip. intros [Hd' _]. congruence. }
  destruct dev as [| | | | | |d]; try discriminate.
  destruct (get_or_dict d ipv4_keys) as [v1 Hv1].
  destruct (get_or_dict d mac_keys) as [v2 Hv2].
  rewrite Hv1. cbn [result_bind].
  pose proof (ip_hit_spec n (JDict d) v1 Hv1) as Hip.
  destruct (as_list v1) as [ips|] eqn:Hl1.
  - destruct (ip_matches ("." +:+ str_of_int n) ips) eqn:Hhit.
    + exists [], devices. split; [done|]. split.
      * split; [done|]. left. by apply Hip.
      * intros d' Hd'. by apply elem_of_nil in Hd'.
    + rewrite Hv2. cbn [result_bind].
      pose proof (mac_hit_spec n (JDict d) v2 Hd Hv2) as Hmac.
      destruct (as_list v2) as [macs|] eqn:Hl2.
      * destruct (mac_matches (format_02x n) macs) as [[|]|e]; cbn [result_bind].
        -- exists [], devices. split; [done|]. split.
           ++ split; [done|]. by right.
           ++ intros d' Hd'. by apply elem_of_nil in Hd'.
        -- apply Hskip. intros [_ [Hi|Hm]]; [|done].
           apply Hip in Hi. done.
        -- destruct Hmac as [-> Hbad]. split; [done|].
           exists (JDict d). split; [apply list_elem_of_here|done].
      * cbn [result_bind]. apply Hskip. intros [_ [Hi|Hm]]; [|done].
        apply Hip in Hi. done.
  - rewrite Hv2. cbn [result_bind].
    pose proof (mac_hit_spec n (JDict d) v2 Hd Hv2) as Hmac.
    destruct (as_list v2) as [macs|] eqn:Hl2.
    + destruct (mac_matches (format_02x n) macs) as [[|]|e]; cbn [result_bind].
      * exists [], devices. split; [done|]. split.
        -- split; [done|]. by right.
        -- intros d' Hd'. by apply elem_of_nil in Hd'.
      * apply Hskip. intros [_ [Hi|Hm]]; [|done].
        apply Hip in Hi. done.
      * destruct Hmac as [-> Hbad]. split; [done|].
        exists (JDict d). split; [apply list_elem_of_here|done].
    + cbn [result_bind]. apply Hskip. intros [_ [Hi|Hm]]; [|done].
      apply Hip in Hi. done.
Qed.

Lemma get_devices_dicts data devices :
  get_devices data = Ok devices → Forall (λ dev, is_dict dev = true) devices.
Proof.
  destruct data as [| | | | |l|d]; simpl; try done.
  - destruct (forallb is_str l); intros [= <-]; apply Forall_fmap, Forall_true.
    + done.
    + intros x. simpl. by destruct (is_dict x) eqn:E.
  - intros [= <-]. by repeat constructor.
Qed.


(** X8: the records that get_devices returns are already in its normal
    form: applied to the list of them, it returns the same list. *)
Theorem get_devices_idempotent (data : json) (devices : list json) :
  get_devices data = Ok devices → get_devices (JList devices) = Ok devices.
Proof.
  intros Hg. pose proof (get_devices_dicts data devices Hg) as Hall. simpl.
  destruct (forallb is_str devices) eqn:Hstr.
  - destruct devices as [|dev devices]; [done|].
    apply Forall_cons in Hall as [Hd _]. simpl in Hstr.
    destruct dev; discriminate.
  - f_equal. clear Hg Hstr. induction Hall as [|dev devices Hd _ IH]; [done|].
    rewrite fmap_cons, IH. by rewrite Hd.
Qed.

Lemma get_devices_idempotent_witness :
  let data := JList [JStr "00:00:00:00:00:01"; JInt 7; JDict [("ipv4", JStr "10.0.0.1")]] in
  let devices := [JDict [("raw", JStr "00:00:00:00:00:01")]; JDict [("raw", JInt 7)];
                  JDict [("ipv4", JStr "10.0.0.1")]] in
  get_devices data = Ok devices ∧ get_devices (JList devices) = Ok devices.
Proof.
  intros data devices.
  exact (conj eq_refl (get_devices_idempotent data devices eq_refl)).
Defined.

Lemma find_device_loop_none devices : find_device_loop None devices = Ok None.
Proof.
  induction devices as [|dev devices IH]; [done|]. cbn [find_device_loop].
  destruct (is_dict dev) eqn:Hd; cbn [negb]; [|done].
  destruct dev as [| | | | | |d]; try discriminate.
  destruct (get_or_dict d ipv4_keys) as [v1 ->].
  destruct (get_or_dict d mac_keys) as [v2 ->]. cbn [result_bind].
  by destruct (as_list v1), (as_list v2).
Qed.

(** X9: for a host name that has no ordinal (what follows its leading h's is
    no integer numeral) find_device_by_name finds no device and raises
    nothing, whatever the records are. *)
Theorem find_device_without_ordinal (devices : list json) (hostname : string) :
  int_of_string (lstrip_char "h" hostname) = None →
  find_device_by_name devices hostname = Ok None.
Proof.
  intros Hn. unfold find_device_by_name. rewrite Hn. apply find_device_loop_none.
Qed.

Lemma find_device_without_ordinal_witness :
  let devices := [JDict [("ipv4", JStr "10.0.0.1"); ("mac", JList [JInt 1])]] in
  int_of_string (lstrip_char "h" "host1") = None ∧
  find_device_by_name devices "host1" = Ok None.
Proof.
  intros devices.
  assert (int_of_string (lstrip_char "h" "host1") = None) as H
    by (vm_compute; reflexivity).
  exact (conj H (find_device_without_ordinal devices "host1" H)).
Defined.

(** X10: the record that find_device_by_name returns is the first object of
    the list that matches the host's ordinal n: one with an IPv4 address
    that ends in a dot and the decimal numeral of n, or with a MAC address that ends
    in the hexadecimal numeral of n. *)
Theorem find_device_first_match (devices : list json) (hostname : string)
    (dev : json) :
  find_device_by_name devices hostname = Ok (Some dev) →
  ∃ n before after,
    int_of_string (lstrip_char "h" hostname) = Some n ∧
    devices = before ++ dev :: after ∧
    device_matches n dev ∧
    ∀ d, d ∈ before → ¬ device_matches n d.
Proof.
  unfold find_device_by_name. intros Hf.
  destruct (int_of_string (lstrip_char "h" hostname)) as [n|].
  2:{ by rewrite find_device_loop_none in Hf. }
  pose proof (find_device_loop_spec n devices) as Hs. rewrite Hf in Hs.
  destruct Hs as (before & after & ? & ? & ?). by exists n, before, after.
Qed.

Lemma find_device_first_match_witness :
  let d1 := JDict [("ipv4", JList [JStr "10.0.0.11"]);
                   ("mac", JStr "00:00:00:00:00:0b")] in
  let d2 := JDict [("ipv4", JList [JInt 1; JStr " 10.0.0.1 "])] in
  let d3 := JDict [("mac", JStr "00:00:00:00:00:01")] in
  find_device_by_name [JStr "x"; d1; d2; d3] "h1" = Ok (Some d2) ∧
  ∃ n before after,
    int_of_string (lstrip_char "h" "h1") = Some n ∧
    [JStr "x"; d1; d2; d3] = before ++ d2 :: after ∧
    device_matches n d2 ∧
    ∀ d, d ∈ before → ¬ device_matches n d.
Proof.
  intros d1 d2 d3.
  assert (find_device_by_name [JStr "x"; d1; d2; d3] "h1" = Ok (Some d2)) as H
    by (vm_compute; reflexivity).
  exact (conj H (find_device_first_match _ _ _ H)).
Defined.

(** X11: when find_device_by_name returns None for a host with ordinal n, no
    record of the list matches n. *)
Theorem find_device_none_no_match (devices : list json) (hostname : string)
    (n : Z) (dev : json) :
  find_device_by_name devices hostname = Ok None →
  int_of_string (lstrip_char "h" hostname) = Some n →
  dev ∈ devices → ¬ device_matches n dev.
Proof.
  unfold find_device_by_name. intros Hf Hn. rewrite Hn in Hf.
  pose proof (find_device_loop_spec n devices) as Hs. rewrite Hf in Hs.
  apply Hs.
Qed.

Lemma find_device_none_no_match_witness :
  let d1 := JDict [("ipv4", JList [JStr "10.0.0.11"]);
                   ("mac", JStr "00:00:00:00:00:0b")] in
  find_device_by_name [d1] "h1" = Ok None ∧
  int_of_string (lstrip_char "h" "h1") = Some 1%Z ∧
  d1 ∈ [d1] ∧ ¬ device_matches 1 d1.
Proof.
  intros d1.
  assert (find_device_by_name [d1] "h1" = Ok None) as H
    by (vm_compute; reflexivity).
  assert (int_of_string (lstrip_char "h" "h1") = Some 1%Z) as Hn
    by (vm_compute; reflexivity).
  assert (d1 ∈ [d1]) as Hin by apply list_elem_of_here.
  exact (conj H (conj Hn (conj Hin
    (find_device_none_no_match [d1] "h1" 1%Z d1 H Hn Hin)))).
Defined.

(** X12: find_device_by_name raises only AttributeError, and only when some
    record lists a MAC address that is no string; an IPv4 address that is no
    string is passed over instead. *)
Theorem find_device_raises (devices : list json) (hostname : string) (e : exn) :
  find_device_by_name devices hostname = Raise e →
  e = AttributeError ∧ ∃ dev, dev ∈ devices ∧ mac_malformed dev.
Proof.
  unfold find_device_by_name. intros Hf.
  destruct (int_of_string (lstrip_char "h" hostname)) as [n|].
  2:{ by rewrite find_device_loop_none in Hf. }
  pose proof (find_device_loop_spec n devices) as Hs. by rewrite Hf in Hs.
Qed.

Lemma find_device_raises_witness :
  let d1 := JDict [("ipv4", JList [JInt 1]); ("mac", JList [JInt 1])] in
  find_device_by_name [d1] "h1" = Raise AttributeError ∧
  AttributeError = AttributeError ∧ ∃ dev, dev ∈ [d1] ∧ mac_malformed dev.
Proof.
  intros d1.
  assert (find_device_by_name [d1] "h1" = Raise AttributeError) as H
    by (vm_compute; reflexivity).
  exact (conj H (find_device_raises [d1] "h1" AttributeError H)).
Defined.

Lemma get_or_raises e keys x :
  get_or e keys = Raise x → x = AttributeError ∧ is_dict e = false.
Proof.
  destruct e as [| | | | | |d]; try (destruct keys; [done|]; by intros [= <-]).
  destruct (get_or_dict d keys) as [v ->]. done.
Qed.

Section DeviceLocatorFacts.
Variable str_other : json → string.

Lemma pick_attachment_raises dev e :
  pick_attachment str_other dev = Raise e → e = AttributeError.
Proof.
  destruct dev as [dev|]; [|done]. unfold pick_attachment.
  destruct (get_or dev attachment_keys) as [ap|x] eqn:Hap; cbn [result_bind].
  2:{ intros [= <-]. by apply get_or_raises in Hap as [-> _]. }
  destruct ap as [| | | | |[|point ?]|]; try done.
  destruct (get_or point attachment_switch_keys) as [sw|x] eqn:Hsw;
    cbn [result_bind].
  2:{ intros [= <-]. by apply get_or_raises in Hsw as [-> _]. }
  destruct (get_or point attachment_port_keys) as [port|x] eqn:Hport;
    cbn [result_bind].
  2:{ intros [= <-]. by apply get_or_raises in Hport as [-> _]. }
  by destruct (py_int port).
Qed.

(** X13: pick_attachment does not check the switch of an attachment point.
    When the first attachment point of a record gives a usable port but has
    none of the switch keys, the attachment is returned with the text None
    as its switch, and not dropped. *)
Theorem pick_attachment_missing_switch (dev : json) (point : dict)
    (rest : list json) (port : json) (n : Z) :
  get_or dev attachment_keys = Ok (JList (JDict point :: rest)) →
  (∀ k, k ∈ attachment_switch_keys → dict_lookup point k = None) →
  get_or (JDict point) attachment_port_keys = Ok port →
  py_int port = Ok n →
  pick_attachment str_other (Some dev) = Ok (Some ("None", n)).
Proof.
  intros Hap Hsw Hport Hn. unfold pick_attachment.
  rewrite Hap. cbn [result_bind].
  assert (get_or (JDict point) attachment_switch_keys = Ok JNull) as ->.
  { unfold attachment_switch_keys, get_or, py_get, dict_get. cbn [result_bind].
    rewrite (Hsw "switchDPID"), (Hsw "switch"), (Hsw "switchId"), (Hsw "dpid")
      by (unfold attachment_switch_keys; set_solver).
    done. }
  cbn [result_bind]. rewrite Hport. cbn [result_bind]. by rewrite Hn.
Qed.

(** The device directory stage raises the exception of the request,
    ValueError or AttributeError, and no other exception. *)
Lemma device_stage_exceptions (args : Args) (devices_answer : result json)
    (e : exn) :
  device_stage str_other args devices_answer = Raise e →
  devices_answer = Raise e ∨ e = ValueError ∨ e = AttributeError.
Proof.
  unfold device_stage.
  destruct devices_answer as [data|x]; cbn [result_bind];
    [|intros [= <-]; by left].
  destruct (get_devices data) as [devices|x] eqn:Hg; cbn [result_bind].
  2:{ intros [= <-]. right. left.
      destruct data as [| | | | |l|d]; simpl in Hg; try congruence.
      by destruct (forallb is_str l). }
  destruct (find_device_by_name devices (arg_src args)) as [src_dev|x] eqn:Hs;
    cbn [result_bind].
  2:{ intros [= <-]. right. right. unfold find_device_by_name in Hs.
      destruct (int_of_string (lstrip_char "h" (arg_src args))) as [n|];
        [|by rewrite find_device_loop_none in Hs].
      pose proof (find_device_loop_spec n devices) as Hl.
      rewrite Hs in Hl. by destruct Hl. }
  destruct (find_device_by_name devices (arg_dst args)) as [dst_dev|x] eqn:Hd;
    cbn [result_bind].
  2:{ intros [= <-]. right. right. unfold find_device_by_name in Hd.
      destruct (int_of_string (lstrip_char "h" (arg_dst args))) as [n|];
        [|by rewrite find_device_loop_none in Hd].
      pose proof (find_device_loop_spec n devices) as Hl.
      rewrite Hd in Hl. by destruct Hl. }
  destruct (pick_attachment str_other src_dev) as [src_ap|x] eqn:Hps;
    cbn [result_bind].
  2:{ intros [= <-]. right. right. by apply pick_attachment_raises in Hps. }
  destruct (pick_attachment str_other dst_dev) as [dst_ap|x] eqn:Hpd;
    cbn [result_bind]; [done|].
  intros [= <-]. right. right. by apply pick_attachment_raises in Hpd.
Qed.

End DeviceLocatorFacts.

Lemma pick_attachment_missing_switch_witness :
  let point := [("port", JInt 3)] in
  let dev := JDict [("ipv4", JStr "10.0.0.1");
                    ("attachmentPoint", JList [JDict point])] in
  get_or dev attachment_keys = Ok (JList (JDict point :: [])) ∧
  (∀ k, k ∈ attachment_switch_keys → dict_lookup point k = None) ∧
  get_or (JDict point) attachment_port_keys = Ok (JInt 3) ∧
  py_int (JInt 3) = Ok 3%Z ∧
  pick_attachment (λ _, "?") (Some dev) = Ok (Some ("None", 3%Z)).
Proof.
  intros point dev.
  assert (∀ k, k ∈ attachment_switch_keys → dict_lookup point k = None) as Hsw.
  { intros k Hk. unfold attachment_switch_keys in Hk.
    repeat (apply elem_of_cons in Hk as [->|Hk]; [reflexivity|]).
    by apply elem_of_nil in Hk. }
  exact (conj eq_refl (conj Hsw (conj eq_refl (conj eq_refl
    (pick_attachment_missing_switch (λ _, "?") dev point [] (JInt 3) 3%Z
       eq_refl Hsw eq_refl eq_refl))))).
Defined.

(** ** The search on a built graph *)

Lemma build_switch_graph_is_symmetric links : symmetric (build_switch_graph links).
Proof. apply fold_add_link_symmetric, symmetric_empty. Qed.

Lemma adjacent_sym g a b : symmetric g → adjacent g a b → adjacent g b a.
Proof.
  intros Hs ([[nbr p] q] & Hin & Hn). unfold entry_nbr in Hn. simpl in Hn.
  subst nbr.
  apply Hs in Hin. by exists (a, q, p).
Qed.

Lemma connects_reverse g a b p :
  symmetric g → connects g a b p → connects g b a (reverse p).
Proof.
  intros Hs ((Hne & Hstep) & Hh & Hl). split; [split|].
  - intros Hr. apply Hne. apply (f_equal length) in Hr.
    rewrite length_reverse in Hr. by destruct p.
  - intros i x y Hx Hy. apply lookup_lt_Some in Hy as Hlt.
    rewrite length_reverse in Hlt.
    rewrite reverse_lookup in Hx by lia. rewrite reverse_lookup in Hy by lia.
    apply (adjacent_sym _ _ _ Hs). apply (Hstep (length p - S (S i))); [done|].
    by replace (S (length p - S (S i))) with (length p - S i) by lia.
  - by rewrite head_reverse, last_reverse.
Qed.

(** X15: in the graph built from the links, the reversal of the path that
    the search returns from the source switch to the destination switch (the
    path that --bidirectional uses for the way back) is a path from the
    destination to the source, and as short as the one that the search
    itself returns in that direction. *)
Theorem reverse_path_shortest_back (links : list Link) (src_sw dst_sw : string)
    (path : list string) :
  shortest_switch_path (build_switch_graph links) src_sw dst_sw = Some path →
  connects (build_switch_graph links) dst_sw src_sw (reverse path) ∧
  ∃ back,
    shortest_switch_path (build_switch_graph links) dst_sw src_sw = Some back ∧
    length back = length (reverse path).
Proof.
  intros Hp. set (g := build_switch_graph links) in *.
  pose proof (build_switch_graph_is_symmetric links) as Hs. fold g in Hs.
  pose proof (shortest_switch_path_post g src_sw dst_sw) as Hfwd.
  rewrite Hp in Hfwd. destruct Hfwd as (Hc & _ & Hmin).
  pose proof (connects_reverse g _ _ _ Hs Hc) as Hrev. split; [done|].
  pose proof (shortest_switch_path_post g dst_sw src_sw) as Hback.
  destruct (shortest_switch_path g dst_sw src_sw) as [back|].
  2:{ by destruct (Hback (reverse path)). }
  exists back. split; [done|]. destruct Hback as (Hcb & _ & Hminb).
  pose proof (Hminb _ Hrev) as H1.
  pose proof (Hmin _ (connects_reverse g _ _ _ Hs Hcb)) as H2.
  rewrite length_reverse in *. lia.
Qed.

Lemma reverse_path_shortest_back_witness :
  shortest_switch_path (build_switch_graph line_links)
    "00:00:00:00:00:00:00:01" "00:00:00:00:00:00:00:03" = Some line_path ∧
  connects (build_switch_graph line_links) "00:00:00:00:00:00:00:03"
    "00:00:00:00:00:00:00:01" (reverse line_path) ∧
  ∃ back,
    shortest_switch_path (build_switch_graph line_links)
      "00:00:00:00:00:00:00:03" "00:00:00:00:00:00:00:01" = Some back ∧
    length back = length (reverse line_path).
Proof.
  exact (conj line_path_computed
    (reverse_path_shortest_back line_links _ _ line_path line_path_computed)).
Defined.

Lemma adjacent_built links a b :
  adjacent (build_switch_graph links) a b ↔
  ∃ l, l ∈ links ∧ str_falsy (src l) = false ∧ str_falsy (dst l) = false ∧
       ((src l = a ∧ dst l = b) ∨ (src l = b ∧ dst l = a)).
Proof.
  unfold adjacent. split.
  - intros (e & Hin & Hn). apply build_switch_graph_entries in Hin
      as (l & Hl & Hs & Hd & [[-> ->]|[-> ->]]); exists l;
      unfold entry_nbr in Hn; simpl in Hn; subst b; naive_solver.
  - intros (l & Hl & Hs & Hd & [[<- <-]|[<- <-]]).
    + exists (dst l, src_port l, dst_port l). split; [|done].
      apply build_switch_graph_entries. exists l. split; [done|].
      split; [done|]. split; [done|]. by left.
    + exists (src l, dst_port l, src_port l). split; [|done].
      apply build_switch_graph_entries. exists l. split; [done|].
      split; [done|]. split; [done|]. by right.
Qed.

(** X16: every step of the path that the search returns on the built graph
    is a link of the topology with both switch identifiers, taken in one
    direction or the other. *)
Theorem path_steps_are_links (links : list Link) (src_sw dst_sw : string)
    (path : list string) (i : nat) (a b : string) :
  shortest_switch_path (build_switch_graph links) src_sw dst_sw = Some path →
  path !! i = Some a → path !! S i = Some b →
  ∃ l, l ∈ links ∧ src l ≠ "" ∧ dst l ≠ "" ∧
       ((src l = a ∧ dst l = b) ∨ (src l = b ∧ dst l = a)).
Proof.
  intros Hp Ha Hb.
  pose proof (shortest_switch_path_post (build_switch_graph links) src_sw dst_sw)
    as Hpost.
  rewrite Hp in Hpost. destruct Hpost as (((_ & Hstep) & _) & _).
  specialize (Hstep i a b Ha Hb).
  apply adjacent_built in Hstep as (l & Hl & Hs & Hd & Hends).
  exists l. split; [done|]. unfold str_falsy in *.
  apply String.eqb_neq in Hs, Hd. done.
Qed.

Lemma path_steps_are_links_witness :
  shortest_switch_path (build_switch_graph line_links)
    "00:00:00:00:00:00:00:01" "00:00:00:00:00:00:00:03" = Some line_path ∧
  line_path !! 1 = Some "00:00:00:00:00:00:00:02" ∧
  line_path !! 2 = Some "00:00:00:00:00:00:00:03" ∧
  ∃ l, l ∈ line_links ∧ src l ≠ "" ∧ dst l ≠ "" ∧
       ((src l = "00:00:00:00:00:00:00:02" ∧ dst l = "00:00:00:00:00:00:00:03") ∨
        (src l = "00:00:00:00:00:00:00:03" ∧ dst l = "00:00:00:00:00:00:00:02")).
Proof.
  exact (conj line_path_computed (conj eq_refl (conj eq_refl
    (path_steps_are_links line_links _ _ line_path 1 _ _
       line_path_computed eq_refl eq_refl)))).
Defined.

Lemma connects_more_links links more a b p :
  connects (build_switch_graph links) a b p →
  connects (build_switch_graph (links ++ more)) a b p.
Proof.
  intros ((Hne & Hstep) & Hh & Hl). split; [split; [done|]|done].
  intros i x y Hx Hy. specialize (Hstep i x y Hx Hy).
  apply adjacent_built in Hstep as (l & Hin & H). apply adjacent_built.
  exists l. split; [|done]. apply elem_of_app. by left.
Qed.

(** X17: links added to the topology never disconnect two switches nor
    lengthen the path between them: where the search finds a path on the
    graph of some links, it finds one, no longer, on the graph of these and
    more links. *)
Theorem more_links_no_longer_path (links more : list Link)
    (src_sw dst_sw : string) (path : list string) :
  shortest_switch_path (build_switch_graph links) src_sw dst_sw = Some path →
  ∃ path',
    shortest_switch_path (build_switch_graph (links ++ more)) src_sw dst_sw
      = Some path' ∧
    length path' ≤ length path.
Proof.
  intros Hp.
  pose proof (shortest_switch_path_post (build_switch_graph links) src_sw dst_sw)
    as Hpost.
  rewrite Hp in Hpost. destruct Hpost as (Hc & _).
  apply (connects_more_links links more) in Hc.
  pose proof (shortest_switch_path_post (build_switch_graph (links ++ more))
                src_sw dst_sw) as Hpost'.
  destruct (shortest_switch_path (build_switch_graph (links ++ more))
              src_sw dst_sw) as [path'|].
  - exists path'. split; [done|]. destruct Hpost' as (_ & _ & Hmin). by apply Hmin.
  - by destruct (Hpost' path).
Qed.

Lemma more_links_no_longer_path_witness :
  let more := [mkLink "00:00:00:00:00:00:00:03" (Some 3%Z)
                      "00:00:00:00:00:00:00:01" (Some 3%Z)] in
  shortest_switch_path (build_switch_graph line_links)
    "00:00:00:00:00:00:00:01" "00:00:00:00:00:00:00:03" = Some line_path ∧
  ∃ path',
    shortest_switch_path (build_switch_graph (line_links ++ more))
      "00:00:00:00:00:00:00:01" "00:00:00:00:00:00:00:03" = Some path' ∧
    length path' ≤ length line_path.
Proof.
  intros more.
  exact (conj line_path_computed
    (more_links_no_longer_path line_links more _ _ line_path line_path_computed)).
Defined.

Lemma connects_distinct_ends g a b p :
  connects g a b p → a ≠ b →
  (∃ y, adjacent g a y) ∧ (∃ x, adjacent g x b).
Proof.
  intros ((Hne & Hstep) & Hh & Hl) Hab.
  destruct p as [|x0 [|x1 p]]; [done|simpl in *; congruence|].
  simpl in Hh. injection Hh as ->. split.
  - exists x1. by apply (Hstep 0).
  - rewrite last_lookup in Hl. simpl in Hl.
    assert (is_Some ((a :: x1 :: p) !! length p)) as [x Hx].
    { apply lookup_lt_is_Some. simpl. lia. }
    exists x. by apply (Hstep (length p)).
Qed.

(** X18: when the source switch or the destination switch is named by no
    link of the topology, and the two differ, a run with resolved
    attachments and a non-empty topology makes its two queries, installs no
    rule and exits with the message that no path was found. *)
Theorem unknown_switch_exits (args : Args)
    (picked : option attachment * option attachment)
    (src_ap dst_ap : attachment) (links : list Link) (sw : string) :
  resolve_attachments args picked.1 picked.2 = (Some src_ap, Some dst_ap) →
  links ≠ [] → src_ap.1 ≠ dst_ap.1 →
  sw = src_ap.1 ∨ sw = dst_ap.1 →
  (∀ l, l ∈ links → src l ≠ sw ∧ dst l ≠ sw) →
  main args (Ok picked) (Ok links)
  = ([Get (devices_url args); Get (links_url args)],
     Raise (SystemExit PathNotFound)).
Proof.
  intros Hres Hne Hdiff Hsw Hno. destruct src_ap as [ss sp], dst_ap as [ds dp].
  simpl in *.
  assert (shortest_switch_path (build_switch_graph links) ss ds = None) as Hnone.
  { pose proof (shortest_switch_path_post (build_switch_graph links) ss ds)
      as Hpost.
    destruct (shortest_switch_path (build_switch_graph links) ss ds) as [p|];
      [|done].
    destruct Hpost as (Hc & _). exfalso.
    destruct (connects_distinct_ends _ _ _ _ Hc Hdiff) as [[y Hy] [x Hx]].
    destruct Hsw as [->| ->].
    - apply adjacent_built in Hy as (l & Hl & _ & _ & Hends).
      destruct (Hno l Hl). naive_solver.
    - apply adjacent_built in Hx as (l & Hl & _ & _ & Hends).
      destruct (Hno l Hl). naive_solver. }
  unfold main, devices_url, links_url. simpl. rewrite Hres. simpl.
  destruct links as [|l links]; [done|]. simpl. rewrite Hnone.
  apply String.eqb_neq in Hdiff. by rewrite Hdiff.
Qed.

Lemma unknown_switch_exits_witness :
  let args := mkArgs "h1" "h9" "http://127.0.0.1:8080" true in
  let src_ap := ("00:00:00:00:00:00:00:01", 1%Z) in
  let dst_ap := ("00:00:00:00:00:00:00:09", 1%Z) in
  resolve_attachments args None None = (Some src_ap, Some dst_ap) ∧
  line_links ≠ [] ∧ src_ap.1 ≠ dst_ap.1 ∧
  ("00:00:00:00:00:00:00:09" = src_ap.1 ∨ "00:00:00:00:00:00:00:09" = dst_ap.1) ∧
  (∀ l, l ∈ line_links →
     src l ≠ "00:00:00:00:00:00:00:09" ∧ dst l ≠ "00:00:00:00:00:00:00:09") ∧
  main args (Ok (None, None)) (Ok line_links)
  = ([Get (devices_url args); Get (links_url args)],
     Raise (SystemExit PathNotFound)).
Proof.
  intros args src_ap dst_ap.
  assert (resolve_attachments args None None = (Some src_ap, Some dst_ap)) as Hres
    by (vm_compute; reflexivity).
  assert (line_links ≠ []) as Hne by discriminate.
  assert (src_ap.1 ≠ dst_ap.1) as Hdiff by discriminate.
  assert ("00:00:00:00:00:00:00:09" = src_ap.1 ∨
          "00:00:00:00:00:00:00:09" = dst_ap.1) as Hsw by (by right).
  assert (∀ l, l ∈ line_links →
            src l ≠ "00:00:00:00:00:00:00:09" ∧
            dst l ≠ "00:00:00:00:00:00:00:09") as Hno.
  { intros l Hl. unfold line_links in Hl.
    repeat (apply elem_of_cons in Hl as [->|Hl]; [by split|]).
    by apply elem_of_nil in Hl. }
  exact (conj Hres (conj Hne (conj Hdiff (conj Hsw (conj Hno
    (unknown_switch_exits args (None, None) src_ap dst_ap line_links _
       Hres Hne Hdiff Hsw Hno)))))).
Defined.

(** ** From the normalizer to the graph *)

Lemma str_of_int_nonempty (n : Z) : str_of_int n ≠ "".
Proof.
  unfold str_of_int. destruct (to_int_nonnil n) as [Hp _].
  destruct (Z.to_int n) as [d|d]; simpl; [|done].
  destruct d; try done.
Qed.

Lemma py_str_truthy (str_other : json → string) v :
  (∀ v, str_other v ≠ "") → truthy v = true → py_str str_other v ≠ "".
Proof.
  intros Hother Ht. destruct v as [|b|z|f|s|l|d]; simpl in *; try done.
  - by destruct b.
  - apply str_of_int_nonempty.
  - unfold str_falsy in Ht. apply negb_true_iff, String.eqb_neq in Ht. done.
Qed.

Lemma normalize_entry_usable (str_other : json → string) e l :
  (∀ v, str_other v ≠ "") →
  normalize_entry str_other e = Ok (Some l) → src l ≠ "" ∧ dst l ≠ "".
Proof.
  intros Hother He. destruct e as [| | | | | |d]; try done.
  destruct (normalize_entry_dict str_other d)
    as (v1 & w1 & v2 & w2 & sp & dp & _ & _ & _ & _ & _ & _ & Hn).
  rewrite Hn in He.
  destruct (truthy w1) eqn:H1, (truthy w2) eqn:H2; simpl in He; try done.
  injection He as <-. simpl. split; by apply py_str_truthy.
Qed.

Lemma get_topology_links_entries (str_other : json → string) raw links l :
  get_topology_links str_other raw = Ok links → l ∈ links →
  ∃ e, normalize_entry str_other e = Ok (Some l).
Proof.
  unfold get_topology_links. intros Hg Hl.
  assert (∀ entries, normalize_loop str_other entries [] = Ok links →
            ∃ e, normalize_entry str_other e = Ok (Some l)) as Hloop.
  { intros entries Hn.
    destruct (normalize_loop_spec str_other entries) as (outcomes & Hall & Hspec).
    rewrite Hspec in Hn. injection Hn as <-. simpl in Hl.
    apply list_elem_of_omap in Hl as (o & Ho & Hid). simpl in Hid. subst o.
    apply list_elem_of_lookup in Ho as [i Hi].
    destruct (Forall2_lookup_r _ _ _ _ _ Hall Hi) as (e & _ & He). by exists e. }
  destruct raw as [| | | | |entries|d]; simpl in Hg;
    try (injection Hg as <-; by apply elem_of_nil in Hl).
  - by apply (Hloop entries).
  - destruct (dict_lookup d "links") as [[| | | | |entries|d']|];
      try (injection Hg as <-; by apply elem_of_nil in Hl).
    by apply (Hloop entries).
Qed.

(** X19: the graph builder drops no link that the normalizer returns.  As
    str of a float, a list or a dict is never empty, both switch identifiers
    of a normalized link are non-empty, and the graph built from the
    normalized links lists the link at both of its switches. *)
Theorem normalized_links_enter_graph (str_other : json → string) (raw : json)
    (links : list Link) (l : Link) :
  (∀ v, str_other v ≠ "") →
  get_topology_links str_other raw = Ok links → l ∈ links →
  src l ≠ "" ∧ dst l ≠ "" ∧
  (dst l, src_port l, dst_port l) ∈ neighbors (build_switch_graph links) (src l) ∧
  (src l, dst_port l, src_port l) ∈ neighbors (build_switch_graph links) (dst l).
Proof.
  intros Hother Hg Hl.
  destruct (get_topology_links_entries str_other raw links l Hg Hl) as [e He].
  destruct (normalize_entry_usable str_other e l Hother He) as [Hs Hd].
  split; [done|]. split; [done|].
  assert (str_falsy (src l) = false ∧ str_falsy (dst l) = false) as [Hs' Hd'].
  { unfold str_falsy. split; by apply String.eqb_neq. }
  split; apply build_switch_graph_entries; exists l; (split; [done|]);
    (split; [done|]); (split; [done|]); [by left|by right].
Qed.

Lemma normalized_links_enter_graph_witness :
  let str_other := λ _ : json, "?" in
  let raw := JDict [("links",
               JList [JDict [("src-switch", JStr "00:00:00:00:00:00:00:01");
                             ("src-port", JInt 2);
                             ("dst-switch", JInt 2);
                             ("dst-port", JStr "3")]])] in
  let l := mkLink "00:00:00:00:00:00:00:01" (Some 2%Z) "2" (Some 3%Z) in
  (∀ v, str_other v ≠ "") ∧
  get_topology_links str_other raw = Ok [l] ∧ l ∈ [l] ∧
  src l ≠ "" ∧ dst l ≠ "" ∧
  (dst l, src_port l, dst_port l) ∈ neighbors (build_switch_graph [l]) (src l) ∧
  (src l, dst_port l, src_port l) ∈ neighbors (build_switch_graph [l]) (dst l).
Proof.
  intros str_other raw l.
  assert (∀ v, str_other v ≠ "") as Hother by (intros v; discriminate).
  assert (get_topology_links str_other raw = Ok [l]) as Hg
    by (vm_compute; reflexivity).
  assert (l ∈ [l]) as Hl by apply list_elem_of_here.
  exact (conj Hother (conj Hg (conj Hl
    (normalized_links_enter_graph str_other raw [l] l Hother Hg Hl)))).
Defined.

Lemma normalize_loop_app (str_other : json → string) es1 es2 normalized :
  normalize_loop str_other (es1 ++ es2) normalized
  = let? r := normalize_loop str_other es1 normalized in
    normalize_loop str_other es2 r.
Proof.
  revert normalized. induction es1 as [|e es1 IH]; intros normalized; [done|].
  simpl. destruct (normalize_entry str_other e) as [[l|]|x]; simpl; by rewrite ?IH.
Qed.

(** X20: get_topology_links normalizes the entries of a list one by one,
    keeping their order: on two lists of entries put end to end it returns
    what it returns on the first, followed by what it returns on the
    second. *)
Theorem get_topology_links_app (str_other : json → string)
    (entries1 entries2 : list json) :
  ∃ links1 links2,
    get_topology_links str_other (JList entries1) = Ok links1 ∧
    get_topology_links str_other (JList entries2) = Ok links2 ∧
    get_topology_links str_other (JList (entries1 ++ entries2))
    = Ok (links1 ++ links2).
Proof.
  unfold get_topology_links.
  destruct (normalize_loop_spec str_other entries1) as (o1 & _ & H1).
  destruct (normalize_loop_spec str_other entries2) as (o2 & _ & H2).
  exists (omap id o1), (omap id o2).
  rewrite normalize_loop_app, !H1. simpl. by rewrite !H2.
Qed.

(** ** The controller's address *)

Lemma rstrip_char_snoc c s : rstrip_char c (s +:+ String c "") = rstrip_char c s.
Proof.
  induction s as [|x s IH].
  - change (rstrip_char c (String c "") = ""). cbn [rstrip_char].
    by rewrite Ascii.eqb_refl.
  - change (rstrip_char c (String x (s +:+ String c "")) = rstrip_char c (String x s)).
    cbn [rstrip_char]. by rewrite IH.
Qed.

(** X21: a slash at the end of the --floodlight address changes nothing: a
    run makes the same requests, to the same addresses, and ends the same
    way with it as without it. *)
Theorem trailing_slash_ignored (src_host dst_host fl : string) (bidir : bool)
    (directory : result (option attachment * option attachment))
    (topology : result (list Link)) :
  main (mkArgs src_host dst_host (fl +:+ "/") bidir) directory topology
  = main (mkArgs src_host dst_host fl bidir) directory topology.
Proof.
  unfold main. cbn [arg_floodlight arg_src arg_dst arg_bidirectional].
  by rewrite rstrip_char_snoc.
Qed.

(** ** The fallback *)

Lemma unorm_D0_nil u v : Decimal.unorm u = Decimal.D0 v → v = Decimal.Nil.
Proof.
  induction u as [|u IH|u _|u _|u _|u _|u _|u _|u _|u _|u _];
    try (simpl; discriminate).
  - simpl. by intros [= <-].
  - rewrite DecimalFacts.unorm_D0. apply IH.
Qed.

(** The decimal numeral of an integer has no leading zero. *)
Lemma str_of_int_leading_zero n r : str_of_int n = String "0" r → r = "".
Proof.
  unfold str_of_int. intros Hs.
  assert (Z.to_int n = Decimal.norm (Z.to_int n)) as Hnorm.
  { rewrite <- DecimalZ.to_of. by rewrite DecimalZ.of_to. }
  destruct (Z.to_int n) as [d|d]; simpl in Hs; [|done].
  destruct d as [|d| | | | | | | | |]; simpl in Hs; try done.
  injection Hs as <-.
  change (Decimal.norm (Decimal.Pos (Decimal.D0 d)))
    with (Decimal.Pos (Decimal.unorm (Decimal.D0 d))) in Hnorm.
  injection Hnorm as Hnorm. symmetry in Hnorm.
  rewrite DecimalFacts.unorm_D0 in Hnorm.
  apply unorm_D0_nil in Hnorm as Hd. by subst d.
Qed.

Lemma format_02d_inj a b : format_02d a = format_02d b → a = b.
Proof.
  unfold format_02d. intros H.
  pose proof (str_of_int_nonempty a) as Ha.
  pose proof (str_of_int_nonempty b) as Hb.
  repeat case_bool_decide.
  - by apply (append_inj_r "0"), str_of_int_inj in H.
  - change ("0" +:+ str_of_int a) with (String "0" (str_of_int a)) in H.
    symmetry in H. apply str_of_int_leading_zero in H. done.
  - change ("0" +:+ str_of_int b) with (String "0" (str_of_int b)) in H.
    apply str_of_int_leading_zero in H. done.
  - by apply str_of_int_inj.
Qed.

(** X22: the fallback sends hosts with different ordinals to different
    switches: two host names for which heuristic gives the same switch have
    the same ordinal. *)
Theorem heuristic_switch_determines_ordinal (h1 h2 : string)
    (a1 a2 : attachment) :
  heuristic h1 = Some a1 → heuristic h2 = Some a2 → a1.1 = a2.1 →
  ∃ n, int_of_string (lstrip_char "h" h1) = Some n ∧
       int_of_string (lstrip_char "h" h2) = Some n.
Proof.
  unfold heuristic. intros H1 H2 Heq.
  destruct (int_of_string (lstrip_char "h" h1)) as [n1|]; [|done].
  destruct (int_of_string (lstrip_char "h" h2)) as [n2|]; [|done].
  injection H1 as <-. injection H2 as <-. simpl in Heq.
  apply (append_inj_r "00:00:00:00:00:00:00:"), format_02d_inj in Heq.
  subst n2. by exists n1.
Qed.

Lemma heuristic_switch_determines_ordinal_witness :
  heuristic "h7" = Some ("00:00:00:00:00:00:00:07", 1%Z) ∧
  heuristic "hh+7" = Some ("00:00:00:00:00:00:00:07", 1%Z) ∧
  ("00:00:00:00:00:00:00:07", 1%Z).1 = ("00:00:00:00:00:00:00:07", 1%Z).1 ∧
  ∃ n, int_of_string (lstrip_char "h" "h7") = Some n ∧
       int_of_string (lstrip_char "h" "hh+7") = Some n.
Proof.
  assert (heuristic "h7" = Some ("00:00:00:00:00:00:00:07", 1%Z)) as H1
    by (vm_compute; reflexivity).
  assert (heuristic "hh+7" = Some ("00:00:00:00:00:00:00:07", 1%Z)) as H2
    by (vm_compute; reflexivity).
  exact (conj H1 (conj H2 (conj eq_refl
    (heuristic_switch_determines_ordinal "h7" "hh+7" _ _ H1 H2 eq_refl)))).
Defined.

(** ** The whole script *)

Lemma get_topology_links_ok (str_other : json → string) raw :
  ∃ links, get_topology_links str_other raw = Ok links.
Proof.
  unfold get_topology_links.
  assert (∀ entries, ∃ links, normalize_loop str_other entries [] = Ok links)
    as Hloop.
  { intros entries.
    destruct (normalize_loop_spec str_other entries) as (outcomes & _ & Hspec).
    rewrite Hspec. by eexists. }
  destruct raw as [| | | | |entries|d]; try by eexists.
  - apply Hloop.
  - destruct (dict_lookup d "links") as [[| | | | |entries|d']|];
      try by eexists.
    apply Hloop.
Qed.

(** X14: the script, from the outcomes of its two queries on and with the
    requests that follow them answered, ends normally or with one of: the
    exception that a query raised, ValueError (a device answer that is
    neither list nor object), AttributeError (a MAC address or an attachment
    point of unexpected type), SystemExit.  It never ends with KeyError,
    IndexError or TypeError. *)
Theorem lightpath_raises (str_other : json → string) (args : Args)
    (devices_answer links_answer : result json) (e : exn) :
  (lightpath str_other args devices_answer links_answer).2 = Raise e →
  devices_answer = Raise e ∨ links_answer = Raise e ∨
  e = ValueError ∨ e = AttributeError ∨ ∃ why, e = SystemExit why.
Proof.
  unfold lightpath. intros He.
  destruct (main_cases args (device_stage str_other args devices_answer)
              (let? raw := links_answer in get_topology_links str_other raw))
    as [[_ (e' & He' & [Hd|[Ht|Hexit]])]|(? & ? & ? & ? & ? & ? & ? &
        _ & _ & _ & _ & _ & _ & _ & Hrun)].
  - rewrite He' in He. injection He as <-.
    apply device_stage_exceptions in Hd as [Hd|[Hd|Hd]]; auto.
  - rewrite He' in He. injection He as <-.
    destruct links_answer as [raw|x]; simpl in Ht.
    + destruct (get_topology_links_ok str_other raw) as [links Hl]. congruence.
    + injection Ht as <-. auto.
  - rewrite He' in He. injection He as <-. auto.
  - by rewrite Hrun in He.
Qed.

Lemma lightpath_raises_witness :
  let args := mkArgs "h1" "h2" "http://127.0.0.1:8080" false in
  let devices_answer :=
    Ok (JList [JDict [("ipv4", JStr "10.0.0.1");
                      ("attachmentPoint", JList [JStr "s1-eth1"])]]) in
  let links_answer := Ok (JList []) in
  (lightpath (λ _, "?") args devices_answer links_answer).2
    = Raise AttributeError ∧
  (devices_answer = Raise AttributeError ∨ links_answer = Raise AttributeError ∨
   AttributeError = ValueError ∨ AttributeError = AttributeError ∨
   ∃ why, AttributeError = SystemExit why).
Proof.
  intros args devices_answer links_answer.
  assert ((lightpath (λ _, "?") args devices_answer links_answer).2
          = Raise AttributeError) as H by (vm_compute; reflexivity).
  exact (conj H (lightpath_raises (λ _, "?") args devices_answer links_answer
                   AttributeError H)).
Defined.

Lemma find_device_loop_no_dict host_num (l : list json) (key : string) :
  key ∉ ipv4_keys → key ∉ mac_keys →
  find_device_loop host_num ((λ x, JDict [(key, x)]) <$> l) = Ok None.
Proof.
  intros Hip Hmac.
  assert (∀ x k, k ≠ key → dict_get [(key, x)] k = JNull) as Hget.
  { intros x k Hk. unfold dict_get. simpl.
    destruct (String.eqb_spec key k); [congruence|done]. }
  induction l as [|x l IH]; [done|].
  rewrite fmap_cons. cbn [find_device_loop is_dict negb].
  unfold ipv4_keys, mac_keys, get_or, py_get in *. cbn [result_bind].
  rewrite !Hget by (intros <-; set_solver). simpl.
  destruct host_num; apply IH.
Qed.

(** X23: a device directory that answers with a list in which no element is
    an object (bare identifiers, say) gives no attachment for either host,
    whatever the host names are, and raises nothing: the run goes on with
    the fallback. *)
Theorem directory_without_objects (str_other : json → string) (args : Args)
    (l : list json) :
  Forall (λ x, is_dict x = false) l →
  device_stage str_other args (Ok (JList l)) = Ok (None, None).
Proof.
  intros Hl. unfold device_stage, get_devices, find_device_by_name.
  cbn [result_bind].
  assert (∀ host_num,
            find_device_loop host_num
              ((λ x, if is_dict x then x else JDict [("raw", x)]) <$> l)
            = Ok None) as Hraw.
  { intros host_num.
    rewrite <- (find_device_loop_no_dict host_num l "raw")
      by (unfold ipv4_keys, mac_keys; set_solver).
    f_equal. apply Forall_fmap_ext. eapply Forall_impl; [exact Hl|].
    intros x Hx. simpl in Hx. by rewrite Hx. }
  destruct (forallb is_str l); cbn [result_bind].
  - rewrite !(find_device_loop_no_dict _ l "id")
      by (unfold ipv4_keys, mac_keys; set_solver).
    done.
  - by rewrite !Hraw.
Qed.

Lemma directory_without_objects_witness :
  let args := mkArgs "h1" "h2" "http://127.0.0.1:8080" false in
  let l := [JStr "00:00:00:00:00:01"; JStr "00:00:00:00:00:02"] in
  Forall (λ x, is_dict x = false) l ∧
  device_stage (λ _, "?") args (Ok (JList l)) = Ok (None, None).
Proof.
  intros args l.
  assert (Forall (λ x, is_dict x = false) l) as Hl by (by repeat constructor).
  exact (conj Hl (directory_without_objects (λ _, "?") args l Hl)).
Defined.

(** X24: when both attachments are resolved, the topology has a link and
    the search finds a path between the two switches, the run completes,
    with the installation requests answered, and installs exactly one rule
    for every switch of the path, and one more with --bidirectional. *)
Theorem resolved_run_completes (args : Args)
    (picked : option attachment * option attachment)
    (src_ap dst_ap : attachment) (links : list Link) (path : list string) :
  resolve_attachments args picked.1 picked.2 = (Some src_ap, Some dst_ap) →
  links ≠ [] →
  shortest_switch_path (build_switch_graph links) src_ap.1 dst_ap.1
    = Some path →
  (main args (Ok picked) (Ok links)).2 = Ok tt ∧
  length (installs (main args (Ok picked) (Ok links)).1)
  = if arg_bidirectional args then 2 * length path else length path.
Proof.
  intros Hres Hne Hp.
  assert ((main args (Ok picked) (Ok links)).2 = Ok tt) as Hok.
  { destruct (main_cases args (Ok picked) (Ok links))
      as [[Hnone (e & He & Hwhy)]|(? & ? & ? & ? & ? & ? & ? &
          _ & _ & _ & _ & _ & _ & _ & ->)]; [exfalso|done].
    destruct src_ap as [ss sp], dst_ap as [ds dp]. simpl in *.
    unfold main in He. simpl in He. rewrite Hres in He. simpl in He.
    destruct links as [|l links]; [done|]. simpl in He. rewrite Hp in He.
    pose proof (shortest_switch_path_nonempty _ _ _ _ Hp) as Hpne.
    destruct (override_endpoints_spec
                (path_ports_for_switches (build_switch_graph (l :: links)) path)
                path sp dp Hpne (λ sw, path_ports_keys _ path sw))
      as (? & ? & ? & ? & _ & _ & _ & _ & Hf).
    assert (reverse path ≠ []) as Hner.
    { intros Hr. apply Hpne. apply (f_equal length) in Hr.
      rewrite length_reverse in Hr. by destruct path. }
    destruct (override_endpoints_spec
                (path_ports_for_switches (build_switch_graph (l :: links))
                   (reverse path))
                (reverse path) dp sp Hner
                (λ sw, path_ports_keys _ (reverse path) sw))
      as (? & ? & ? & ? & _ & _ & _ & _ & Hr).
    simpl in He. rewrite Hf in He. simpl in He.
    rewrite install_flows_rules in He.
    2:{ intros y Hy. apply enumerate_elem_of in Hy.
        eapply override_endpoints_keys; [exact Hpne| |exact Hf|exact Hy].
        intros sw. apply path_ports_keys. }
    simpl in He. destruct (arg_bidirectional args); simpl in He; [|done].
    rewrite Hr in He. simpl in He. rewrite install_flows_rules in He.
    2:{ intros y Hy. apply enumerate_elem_of in Hy.
        eapply override_endpoints_keys; [exact Hner| |exact Hr|exact Hy].
        intros sw. apply path_ports_keys. }
    done. }
  split; [done|].
  destruct (main_completed args (Ok picked) (Ok links) Hok)
    as (picked' & src_ap' & dst_ap' & links' & path' & hpf & hpr &
        Hd & Hres' & Ht & _ & Hp' & _ & _ & ->).
  injection Hd as <-. injection Ht as <-.
  rewrite Hres in Hres'. injection Hres' as <- <-.
  rewrite Hp in Hp'. injection Hp' as <-.
  rewrite length_app, length_fmap, length_enumerate.
  destruct (arg_bidirectional args); simpl.
  - rewrite length_fmap, length_enumerate, length_reverse. lia.
  - lia.
Qed.

Lemma resolved_run_completes_witness :
  let args := mkArgs "h1" "h3" "http://127.0.0.1:8080" true in
  let src_ap := ("00:00:00:00:00:00:00:01", 1%Z) in
  let dst_ap := ("00:00:00:00:00:00:00:03", 1%Z) in
  resolve_attachments args None None = (Some src_ap, Some dst_ap) ∧
  line_links ≠ [] ∧
  shortest_switch_path (build_switch_graph line_links) src_ap.1 dst_ap.1
    = Some line_path ∧
  (main args (Ok (None, None)) (Ok line_links)).2 = Ok tt ∧
  length (installs (main args (Ok (None, None)) (Ok line_links)).1)
  = if arg_bidirectional args then 2 * length line_path else length line_path.
Proof.
  intros args src_ap dst_ap.
  assert (resolve_attachments args None None = (Some src_ap, Some dst_ap)) as Hres
    by (vm_compute; reflexivity).
  assert (line_links ≠ []) as Hne by discriminate.
  exact (conj Hres (conj Hne (conj line_path_computed
    (resolved_run_completes args (None, None) src_ap dst_ap line_links line_path
       Hres Hne line_path_computed)))).
Defined.

(** ** Ports of a link record *)

(** Where [int(v)] raises, [int(str(v))] raises as well, [str] of a float, a
    list or a dict being no integer numeral. *)
Lemma py_int_of_str_fails (str_other : json → string) v :
  (∀ v, int_of_string (str_other v) = None) →
  (∀ m, py_int v ≠ Ok m) → ∀ n, py_int (JStr (py_str str_other v)) ≠ Ok n.
Proof.
  intros Hother Hv n.
  destruct v as [|b|z|f|s|l|d]; cbn [py_str].
  - by vm_compute.
  - by destruct (Hv (if b then 1 else 0)%Z).
  - by destruct (Hv z).
  - cbn [py_int]. by rewrite Hother.
  - apply Hv.
  - cbn [py_int]. by rewrite Hother.
  - cbn [py_int]. by rewrite Hother.
Qed.

(** X25: the second conversion of get_port, int(str(v)), never gives a port
    where int(v) raised, since str of a float, a list or a dict is no
    integer numeral.  So the port that get_port returns for a record is
    int(v) for the first alias, in the order given, whose value converts;
    it is None exactly when no alias has a value that converts; and
    get_port raises nothing. *)
Theorem get_port_first_int (str_other : json → string) (d : dict)
    (keys : list string) :
  (∀ v, int_of_string (str_other v) = None) →
  match get_port str_other (JDict d) keys with
  | Ok (Some n) =>
      ∃ before k after,
        keys = before ++ k :: after ∧ py_int (dict_get d k) = Ok n ∧
        ∀ k', k' ∈ before → ∀ m, py_int (dict_get d k') ≠ Ok m
  | Ok None => ∀ k, k ∈ keys → ∀ m, py_int (dict_get d k) ≠ Ok m
  | Raise _ => False
  end.
Proof.
  intros Hother. induction keys as [|k keys IH].
  { simpl. intros k Hk. by apply elem_of_nil in Hk. }
  assert ((∀ m, py_int (dict_get d k) ≠ Ok m) →
          match get_port str_other (JDict d) keys with
          | Ok (Some n) =>
              ∃ before k0 after,
                k :: keys = before ++ k0 :: after ∧
                py_int (dict_get d k0) = Ok n ∧
                ∀ k', k' ∈ before → ∀ m, py_int (dict_get d k') ≠ Ok m
          | Ok None => ∀ k0, k0 ∈ k :: keys → ∀ m, py_int (dict_get d k0) ≠ Ok m
          | Raise _ => False
          end) as Hskip.
  { intros Hk. destruct (get_port str_other (JDict d) keys) as [[n|]|x];
      [| |done].
    - destruct IH as (before & k0 & after & -> & Hn & Hb).
      exists (k :: before), k0, after. split; [done|]. split; [done|].
      intros k' [->|Hk']%elem_of_cons; [done|by apply Hb].
    - intros k0 [->|Hk0]%elem_of_cons; [done|by apply IH]. }
  cbn [get_port py_get result_bind].
  destruct (py_int (dict_get d k)) as [n|x] eqn:Hint.
  - destruct (dict_get d k) eqn:Hv; try done;
      exists [], k, keys; (split; [done|]); (split; [by rewrite Hv|]);
      intros k' Hk'; by apply elem_of_nil in Hk'.
  - assert (∀ m, py_int (dict_get d k) ≠ Ok m) as Hk by (by rewrite Hint).
    pose proof (py_int_of_str_fails str_other _ Hother Hk) as Hstr.
    destruct (py_int (JStr (py_str str_other (dict_get d k)))) as [n|y];
      [by destruct (Hstr n)|].
    destruct (dict_get d k); by apply Hskip.
Qed.

Lemma get_port_first_int_witness :
  let str_other := λ _ : json, "?" in
  let d := [("src-port", JList [JInt 1]); ("src_port", JStr " 2 ");
            ("srcPort", JInt 3)] in
  (∀ v, int_of_string (str_other v) = None) ∧
  match get_port str_other (JDict d) src_port_keys with
  | Ok (Some n) =>
      ∃ before k after,
        src_port_keys = before ++ k :: after ∧ py_int (dict_get d k) = Ok n ∧
        ∀ k', k' ∈ before → ∀ m, py_int (dict_get d k') ≠ Ok m
  | Ok None => ∀ k, k ∈ src_port_keys → ∀ m, py_int (dict_get d k) ≠ Ok m
  | Raise _ => False
  end.
Proof.
  intros str_other d.
  assert (∀ v, int_of_string (str_other v) = None) as Hother
    by (intros v; vm_compute; reflexivity).
  exact (conj Hother (get_port_first_int str_other d src_port_keys Hother)).
Defined.
